(** * The exporter helper of the collector: sender chain and bounded queue

    Shallow embedding of [exporter/exporterhelper/common.go] (package
    [exporterhelper]) and of the bounded memory queue exercised by the
    tests of package [internal], with the properties of the export
    pipeline proved over them.

    Go pointers to senders are locations in a store of sender objects, so
    that [setNextSender] and the options mutate shared objects as the
    source does.  Calls whose bodies live outside [common.go] are recorded
    in a trace and answered by an environment. *)

From stdpp Require Import list strings gmap.

(* ===================================================================== *)
(** ** Package exporterhelper                                             *)
(* ===================================================================== *)

Module exporterhelper.

(** A Go [error] value.  [[]] is [nil]; a singleton is an ordinary error;
    a longer list is a combined error. *)
Definition error := list string.

Definition isNil (e : error) : bool :=
  match e with [] => true | _ => false end.

(** Modelled from the spec: [multierr.Combine] belongs to the imported
    package go.uber.org/multierr, which is not part of the sources.  The
    spec says the errors are accumulated, not short-circuited, and returned
    together: nil errors are skipped, the others are kept in argument
    order, and all-nil gives nil. *)
Definition Combine (errs : list error) : error := concat errs.

(** Result of running Go code: a value, a panic, or (only for the fuelled
    interpreter of [send]) exhaustion of the fuel. *)
Inductive Res (A : Type) : Type :=
| Val (a : A)
| Panic (msg : string)
| OutOfFuel.
Arguments Val {A} a.
Arguments Panic {A} msg.
Arguments OutOfFuel {A}.

Definition bindRes {A B} (r : Res A) (k : A -> Res B) : Res B :=
  match r with
  | Val a => k a
  | Panic msg => Panic msg
  | OutOfFuel => OutOfFuel
  end.


Definition loc := nat.

(** Settings structs.  Their declarations are outside [common.go]; the
    fields are the ones the options read, with the names of the
    configuration surface. *)
Record TimeoutSettings := { Timeout : nat (* seconds; 0 disables *) }.

Record RetrySettings := {
  RetryEnabled : bool;
  InitialInterval : Z;   (* time.Duration, seconds *)
  MaxInterval : Z;
  MaxElapsedTime : Z
}.

Record QueueSettings := {
  QueueEnabled : bool;
  NumConsumers : Z;      (* Go int *)
  QueueSize : Z
}.

(** "The default TimeoutSettings is 5 seconds." *)
Definition NewDefaultTimeoutSettings : TimeoutSettings := {| Timeout := 5 |}.

(** [internal.Request] as [common.go] uses it: [Count()] for the log line
    and the [baseRequest] fields.  Callbacks are named by a number. *)
Record Request := {
  payload : string;
  Count : nat;
  processingFinishedCallback : option nat
}.

(** The dynamic type behind a [requestSender] interface value. *)
Inductive senderImpl :=
| BaseRequestSender
| ErrorLoggingRequestSender (message : string)
| ObsrepSender
| RetrySender (cfg : RetrySettings) (onTemporaryFailure : option loc)
| QueueSender (cfg : QueueSettings) (signal : string)
| TimeoutSender (cfg : TimeoutSettings).

(** A sender object in the store: every sender type embeds
    [baseRequestSender], whose [nextSender] field [setNextSender] writes. *)
Record senderObj := {
  impl : senderImpl;
  nextSender : option loc
}.

Abbreviation Heap := (list senderObj).

Definition alloc (h : Heap) (i : senderImpl) : loc * Heap :=
  (length h, h ++ [{| impl := i; nextSender := None |}]).

Definition nilDeref : string := "invalid memory address or nil pointer dereference"%string.

(** [func (b *baseRequestSender) setNextSender(nextSender requestSender)] *)
Definition setNextSender (l : loc) (next : loc) (h : Heap) : Res Heap :=
  match h !! l with
  | Some o => Val (<[l := {| impl := impl o; nextSender := Some next |}]> h)
  | None => Panic nilDeref
  end.

Record baseExporter := {
  StartFunc : option nat;      (* component.StartFunc; nil is [None] *)
  ShutdownFunc : option nat;   (* component.ShutdownFunc *)
  requestExporter : bool;
  signal_ : string;
  queueSender : loc;
  obsrepSender : loc;
  retrySender : loc;
  timeoutSender : loc;
  onTemporaryFailure_ : option loc;
  consumerOptions : list bool  (* capabilities: MutatesData *)
}.

Definition withStartFunc (f : option nat) (o : baseExporter) :=
  {| StartFunc := f; ShutdownFunc := ShutdownFunc o;
     requestExporter := requestExporter o; signal_ := signal_ o;
     queueSender := queueSender o; obsrepSender := obsrepSender o;
     retrySender := retrySender o; timeoutSender := timeoutSender o;
     onTemporaryFailure_ := onTemporaryFailure_ o;
     consumerOptions := consumerOptions o |}.

Definition withShutdownFunc (f : option nat) (o : baseExporter) :=
  {| StartFunc := StartFunc o; ShutdownFunc := f;
     requestExporter := requestExporter o; signal_ := signal_ o;
     queueSender := queueSender o; obsrepSender := obsrepSender o;
     retrySender := retrySender o; timeoutSender := timeoutSender o;
     onTemporaryFailure_ := onTemporaryFailure_ o;
     consumerOptions := consumerOptions o |}.

Definition withQueueSender (l : loc) (o : baseExporter) :=
  {| StartFunc := StartFunc o; ShutdownFunc := ShutdownFunc o;
     requestExporter := requestExporter o; signal_ := signal_ o;
     queueSender := l; obsrepSender := obsrepSender o;
     retrySender := retrySender o; timeoutSender := timeoutSender o;
     onTemporaryFailure_ := onTemporaryFailure_ o;
     consumerOptions := consumerOptions o |}.

Definition withRetrySender (l : loc) (o : baseExporter) :=
  {| StartFunc := StartFunc o; ShutdownFunc := ShutdownFunc o;
     requestExporter := requestExporter o; signal_ := signal_ o;
     queueSender := queueSender o; obsrepSender := obsrepSender o;
     retrySender := l; timeoutSender := timeoutSender o;
     onTemporaryFailure_ := onTemporaryFailure_ o;
     consumerOptions := consumerOptions o |}.

Definition withOnTemporaryFailure (f : option loc) (o : baseExporter) :=
  {| StartFunc := StartFunc o; ShutdownFunc := ShutdownFunc o;
     requestExporter := requestExporter o; signal_ := signal_ o;
     queueSender := queueSender o; obsrepSender := obsrepSender o;
     retrySender := retrySender o; timeoutSender := timeoutSender o;
     onTemporaryFailure_ := f;
     consumerOptions := consumerOptions o |}.

Definition withConsumerOptions (c : list bool) (o : baseExporter) :=
  {| StartFunc := StartFunc o; ShutdownFunc := ShutdownFunc o;
     requestExporter := requestExporter o; signal_ := signal_ o;
     queueSender := queueSender o; obsrepSender := obsrepSender o;
     retrySender := retrySender o; timeoutSender := timeoutSender o;
     onTemporaryFailure_ := onTemporaryFailure_ o;
     consumerOptions := c |}.

(** [func (be *baseExporter) setOnTemporaryFailure(...)]: stores the
    handler and, when the retry slot holds a [*retrySender], writes it
    into that object too. *)
Definition setOnTemporaryFailure (f : option loc) (o : baseExporter) (h : Heap)
  : baseExporter * Heap :=
  let o' := withOnTemporaryFailure f o in
  match h !! retrySender o with
  | Some {| impl := RetrySender cfg _; nextSender := n |} =>
      (o', <[retrySender o := {| impl := RetrySender cfg f; nextSender := n |}]> h)
  | _ => (o', h)
  end.

Definition retryDisabledMessage : string :=
  "Exporting failed. Try enabling retry_on_failure config option to retry on retryable errors"%string.

Definition queueDisabledMessage : string :=
  "Exporting failed. Dropping data. Try enabling sending_queue to survive temporary failures."%string.

Definition queuePanicMessage : string :=
  "queueing is not available for the new request exporters yet"%string.

Definition invalidCapacityMessage : string := "invalid queue capacity"%string.

Definition invalidRetryMessage : string := "invalid retry parameters"%string.

(** Modelled from the spec: [newQueueSender] is declared outside
    [common.go].  [WithQueue] takes its single result (line 138), so the
    fatal condition of the spec, "invalid capacity (negative)", can abort
    construction only by a panic.  The storage id is resolved by the host,
    which this call is not given, and plays no part here. *)
Definition newQueueSender (config : QueueSettings) (signal : string)
  : Res senderImpl :=
  if (QueueSize config <? 0)%Z then Panic invalidCapacityMessage
  else Val (QueueSender config signal).

(** Modelled from the spec: [newRetrySender] is declared outside
    [common.go].  [WithRetry] takes its single result (line 119) and calls
    it only when retry is enabled, so the fatal condition of the spec,
    "invalid retry parameters (non-positive intervals with retry
    enabled)", can abort construction only by a panic. *)
Definition newRetrySender (config : RetrySettings)
    (onTemporaryFailure : option loc) : Res senderImpl :=
  if ((InitialInterval config <=? 0) || (MaxInterval config <=? 0))%Z
  then Panic invalidRetryMessage
  else Val (RetrySender config onTemporaryFailure).

(** [type Option]: a function on a [baseExporter] pointer; these are the
    options this file declares. *)
Inductive Option :=
| WithStart (start : option nat)
| WithShutdown (shutdown : option nat)
| WithTimeout (timeoutSettings : TimeoutSettings)
| WithRetry (config : RetrySettings)
| WithQueue (config : QueueSettings)
| WithCapabilities (capabilities : bool).

(** Running an option on the exporter under construction. *)
Definition applyOption (op : Option) (o : baseExporter) (h : Heap)
  : Res (baseExporter * Heap) :=
  match op with
  | WithStart start => Val (withStartFunc start o, h)
  | WithShutdown shutdown => Val (withShutdownFunc shutdown o, h)
  | WithTimeout timeoutSettings =>
      (* o.timeoutSender.cfg = timeoutSettings *)
      match h !! timeoutSender o with
      | Some {| impl := TimeoutSender _; nextSender := n |} =>
          Val (o, <[timeoutSender o :=
                      {| impl := TimeoutSender timeoutSettings; nextSender := n |}]> h)
      | _ => Panic nilDeref
      end
  | WithRetry config =>
      if negb (RetryEnabled config) then
        let '(l, h') := alloc h (ErrorLoggingRequestSender retryDisabledMessage) in
        Val (withRetrySender l o, h')
      else
        bindRes (newRetrySender config (onTemporaryFailure_ o)) (fun rs =>
        let '(l, h') := alloc h rs in
        Val (withRetrySender l o, h'))
  | WithQueue config =>
      if requestExporter o then Panic queuePanicMessage
      else if negb (QueueEnabled config) then
        let '(l, h') := alloc h (ErrorLoggingRequestSender queueDisabledMessage) in
        Val (withQueueSender l o, h')
      else
        bindRes (newQueueSender config (signal_ o)) (fun sender =>
        let '(qs, h') := alloc h sender in
        let o' := withQueueSender qs o in
        Val (setOnTemporaryFailure (Some qs) o' h'))
  | WithCapabilities capabilities =>
      Val (withConsumerOptions (consumerOptions o ++ [capabilities]) o, h)
  end.

(** [for _, op := range options { op(be) }] *)
Fixpoint applyOptions (options : list Option) (o : baseExporter) (h : Heap)
  : Res (baseExporter * Heap) :=
  match options with
  | [] => Val (o, h)
  | op :: rest =>
      bindRes (applyOption op o h) (fun '(o', h') => applyOptions rest o' h')
  end.

(** [func (be *baseExporter) connectSenders()] *)
Definition connectSenders (be : baseExporter) (h : Heap) : Res Heap :=
  bindRes (setNextSender (queueSender be) (obsrepSender be) h) (fun h1 =>
  bindRes (setNextSender (obsrepSender be) (retrySender be) h1) (fun h2 =>
  setNextSender (retrySender be) (timeoutSender be) h2)).

(** [newBaseExporter].  [obsReportErr] is what [NewObsReport] returns as
    its error; the factory [osf] is taken to return a sender (not nil), a
    fresh object of the factory's own type.  The four initial senders are
    allocated in the order of the struct literal. *)
Definition newBaseExporter (obsReportErr : error) (signal : string)
    (requestExporter : bool) (options : list Option)
  : Res (baseExporter * Heap + error) :=
  if negb (isNil obsReportErr) then Val (inr obsReportErr)
  else
    let '(q, h1) := alloc [] BaseRequestSender in
    let '(ob, h2) := alloc h1 ObsrepSender in
    let '(r, h3) := alloc h2 BaseRequestSender in
    let '(t, h4) := alloc h3 (TimeoutSender NewDefaultTimeoutSettings) in
    let be := {| StartFunc := None; ShutdownFunc := None;
                 requestExporter := requestExporter; signal_ := signal;
                 queueSender := q; obsrepSender := ob;
                 retrySender := r; timeoutSender := t;
                 onTemporaryFailure_ := None; consumerOptions := [] |} in
    bindRes (applyOptions options be h4) (fun '(be', h') =>
    bindRes (connectSenders be' h') (fun h'' =>
    Val (inl (be', h'')))).

(** *** Running the exporter: Start, Shutdown and send *)

(** Whose [Start]/[Shutdown] is called: the wrapped exporter's function
    held in [StartFunc]/[ShutdownFunc] (possibly nil), or a sender. *)
Inductive Component :=
| Wrapped (f : option nat)
| SenderAt (l : loc).

(** What an execution does, in order. *)
Inductive Event :=
| EvStart (c : Component)
| EvShutdown (c : Component)
| EvSend (l : loc) (req : Request)
| EvLogError (message : string) (dropped_items : nat) (err : error)
| EvProcessingFinished (callback : nat).

Abbreviation Trace := (list Event).

(** Computations that extend the trace and may panic. *)
Definition M (A : Type) : Type := Trace -> Res A * Trace.

Definition ret {A} (a : A) : M A := fun t => (Val a, t).

Definition panic {A} (msg : string) : M A := fun t => (Panic msg, t).

Definition bind {A B} (m : M A) (k : A -> M B) : M B :=
  fun t =>
    match m t with
    | (Val a, t') => k a t'
    | (Panic msg, t') => (Panic msg, t')
    | (OutOfFuel, t') => (OutOfFuel, t')
    end.

Definition emit (e : Event) : M unit := fun t => (Val tt, t ++ [e]).

Notation "'let!' x ':=' m 'in' k" := (bind m (fun x => k))
  (at level 10, x pattern, m at level 100, k at level 200).

(** [func (req *baseRequest) OnProcessingFinished()] *)
Definition OnProcessingFinished (req : Request) : M unit :=
  match processingFinishedCallback req with
  | Some callback => emit (EvProcessingFinished callback)
  | None => ret tt
  end.

(** [func (req *baseRequest) SetOnProcessingFinished(callback func())] *)
Definition SetOnProcessingFinished (callback : option nat) (req : Request) : Request :=
  {| payload := payload req; Count := Count req;
     processingFinishedCallback := callback |}.

Section Runtime.

(** The answer of code outside [common.go] to a call, as a function of
    everything that happened up to and including the call. *)
Variable env : Trace -> error.

(** [send] of the sender types declared outside [common.go], given the
    embedded [baseRequestSender.send] to reach their next sender. *)
Variable extSend : senderImpl -> (Request -> M error) -> Request -> M error.

(** [component.StartFunc.Start]: a nil function does nothing and returns
    nil. *)
Definition StartFunc_Start (f : option nat) : M error :=
  let! _ := emit (EvStart (Wrapped f)) in
  match f with
  | None => ret []
  | Some _ => fun t => (Val (env t), t)
  end.

(** [component.ShutdownFunc.Shutdown] *)
Definition ShutdownFunc_Shutdown (f : option nat) : M error :=
  let! _ := emit (EvShutdown (Wrapped f)) in
  match f with
  | None => ret []
  | Some _ => fun t => (Val (env t), t)
  end.

(** [Start] of a sender: [baseRequestSender] and
    [errorLoggingRequestSender] have the embedded nil [StartFunc]. *)
Definition sender_Start (h : Heap) (l : loc) : M error :=
  match h !! l with
  | None => panic nilDeref
  | Some o =>
      let! _ := emit (EvStart (SenderAt l)) in
      match impl o with
      | BaseRequestSender | ErrorLoggingRequestSender _ => ret []
      | _ => fun t => (Val (env t), t)
      end
  end.

Definition sender_Shutdown (h : Heap) (l : loc) : M error :=
  match h !! l with
  | None => panic nilDeref
  | Some o =>
      let! _ := emit (EvShutdown (SenderAt l)) in
      match impl o with
      | BaseRequestSender | ErrorLoggingRequestSender _ => ret []
      | _ => fun t => (Val (env t), t)
      end
  end.

(** [func (b *baseRequestSender) send(req internal.Request) error] *)
Definition baseRequestSender_send (next : option (Request -> M error))
    (req : Request) : M error :=
  match next with
  | None => panic nilDeref
  | Some n => n req
  end.

(** [func (l *errorLoggingRequestSender) send(req internal.Request) error] *)
Definition errorLoggingRequestSender_send (message : string)
    (next : option (Request -> M error)) (req : Request) : M error :=
  let! err := baseRequestSender_send next req in
  if negb (isNil err) then
    let! _ := emit (EvLogError message (Count req) err) in
    ret err
  else ret err.

(** [s.send(req)] on the interface value at [l]: dispatch on the dynamic
    type.  The recursion follows [nextSender] pointers through the
    store, hence the fuel. *)
Fixpoint send (fuel : nat) (h : Heap) (l : loc) (req : Request) : M error :=
  match fuel with
  | 0 => fun t => (OutOfFuel, t)
  | S fuel' =>
      match h !! l with
      | None => panic nilDeref
      | Some o =>
          let next := (fun n => send fuel' h n) <$> nextSender o in
          let! _ := emit (EvSend l req) in
          match impl o with
          | BaseRequestSender => baseRequestSender_send next req
          | ErrorLoggingRequestSender message =>
              errorLoggingRequestSender_send message next req
          | i => extSend i (baseRequestSender_send next) req
          end
      end
  end.

(** [func (be *baseExporter) send(req internal.Request) error] *)
Definition baseExporter_send (fuel : nat) (be : baseExporter) (h : Heap)
    (req : Request) : M error :=
  send fuel h (queueSender be) req.

(** [func (be *baseExporter) Start(ctx, host) error] *)
Definition Start (be : baseExporter) (h : Heap) : M error :=
  let! err := StartFunc_Start (StartFunc be) in
  if negb (isNil err) then ret err
  else sender_Start h (queueSender be).

(** [func (be *baseExporter) Shutdown(ctx) error]: Go evaluates the
    arguments of [multierr.Combine] from left to right. *)
Definition Shutdown (be : baseExporter) (h : Heap) : M error :=
  let! e1 := sender_Shutdown h (retrySender be) in
  let! e2 := sender_Shutdown h (queueSender be) in
  let! e3 := ShutdownFunc_Shutdown (ShutdownFunc be) in
  ret (Combine [e1; e2; e3]).

(** The methods a constructed exporter offers, run on the exporter and
    its store; each returns the exporter and the store it leaves. *)
Inductive Op :=
| OpSend (req : Request)
| OpStart
| OpShutdown.

Definition runOp (fuel : nat) (op : Op) (be : baseExporter) (h : Heap)
  : M (error * baseExporter * Heap) :=
  match op with
  | OpSend req => let! err := baseExporter_send fuel be h req in ret (err, be, h)
  | OpStart => let! err := Start be h in ret (err, be, h)
  | OpShutdown => let! err := Shutdown be h in ret (err, be, h)
  end.

End Runtime.

(** The sender chain read off the store: the slot objects and their links. *)
Inductive Slot := SlotQueue | SlotObsrep | SlotRetry | SlotTimeout.

Definition slotLoc (be : baseExporter) (s : Slot) : loc :=
  match s with
  | SlotQueue => queueSender be
  | SlotObsrep => obsrepSender be
  | SlotRetry => retrySender be
  | SlotTimeout => timeoutSender be
  end.

Definition slotImpl (be : baseExporter) (h : Heap) (s : Slot) : option senderImpl :=
  impl <$> h !! slotLoc be s.

Definition slotNext (be : baseExporter) (h : Heap) (s : Slot) : option loc :=
  o ← h !! slotLoc be s; nextSender o.

(** [queue -> obs -> retry -> timeout] *)
Definition linked (be : baseExporter) (h : Heap) : Prop :=
  slotNext be h SlotQueue = Some (obsrepSender be) /\
  slotNext be h SlotObsrep = Some (retrySender be) /\
  slotNext be h SlotRetry = Some (timeoutSender be).

(** An option that puts a new sender object into a slot. *)
Definition replaces (op : Option) (s : Slot) : bool :=
  match op, s with
  | WithQueue _, SlotQueue => true
  | WithRetry _, SlotRetry => true
  | _, _ => false
  end.

Definition replaced (options : list Option) (s : Slot) : bool :=
  existsb (fun op => replaces op s) options.

(** A sender that only hands the request to its next sender: a bare
    [baseRequestSender], or a timeout sender with the deadline disabled. *)
Definition isPassThrough (i : senderImpl) : bool :=
  match i with
  | BaseRequestSender => true
  | TimeoutSender cfg => Nat.eqb (Timeout cfg) 0
  | _ => false
  end.

End exporterhelper.

(* ===================================================================== *)
(** ** Package internal: the bounded memory queue                         *)
(* ===================================================================== *)

Module internal.

(** [stringRequest] of the queue tests: a request that carries a string. *)
Record stringRequest := newStringRequest { str : string }.

(** Modelled from the spec: the worker tasks of the queue, whose code
    (bounded_memory_queue.go) is not part of the sources.  A worker is
    about to dequeue ([Ready]), blocked on dequeue because the queue was
    empty and open ([Waiting]), holding an item it has received and about
    to invoke the callback ([Busy]), inside [callback(item)] ([Calling]),
    or gone ([Exited]: the queue was closed and empty).  Receiving an item
    and invoking the callback are two steps: between them other workers
    can move. *)
Inductive Worker :=
| Ready
| Waiting
| Busy (item : stringRequest)
| Calling (item : stringRequest)
| Exited.

(** Modelled from the spec: the queue, "a bounded channel-like FIFO of
    capacity C, plus W long-lived worker tasks"; bounded_memory_queue.go
    is not part of the sources.  [items] is the buffer, oldest first.
    [accepted], [delivered] and [seen] are history: the requests for which
    [Produce] returned true, the requests handed to a worker (taken from
    the buffer or received directly), and the requests the callback was
    invoked with, each in the order it happened. *)
Record Queue := {
  capacity : nat;
  numConsumers : nat;
  items : list stringRequest;
  started : bool;
  stopped : bool;
  returned : bool;
  workers : list Worker;
  accepted : list stringRequest;
  delivered : list stringRequest;
  seen : list stringRequest
}.

(** Modelled from the spec: [NewBoundedMemoryQueue(capacity, numConsumers)],
    declared in the absent bounded_memory_queue.go: an empty open queue,
    no worker running yet. *)
Definition NewBoundedMemoryQueue (capacity numConsumers : nat) : Queue :=
  {| capacity := capacity; numConsumers := numConsumers; items := [];
     started := false; stopped := false; returned := false;
     workers := []; accepted := []; delivered := []; seen := [] |}.

(** Modelled from the spec: [Start], declared in the absent
    bounded_memory_queue.go, launches the W workers. *)
Definition Start (q : Queue) : Queue :=
  {| capacity := capacity q; numConsumers := numConsumers q; items := items q;
     started := true; stopped := stopped q; returned := returned q;
     workers := replicate (numConsumers q) Ready;
     accepted := accepted q; delivered := delivered q; seen := seen q |}.

(** Modelled from the spec: [Size], declared in the absent
    bounded_memory_queue.go, "counts items currently buffered (not
    in-flight at a worker)". *)
Definition Size (q : Queue) : nat := length (items q).

Definition Capacity (q : Queue) : nat := capacity q.

Definition isWaiting (w : Worker) : bool :=
  match w with Waiting => true | _ => false end.

Definition isExited (w : Worker) : bool :=
  match w with Exited => true | _ => false end.

(** Index of the first worker blocked on dequeue. *)
Fixpoint firstWaiting (ws : list Worker) : option nat :=
  match ws with
  | [] => None
  | w :: rest => if isWaiting w then Some 0 else S <$> firstWaiting rest
  end.

(** Modelled from the spec: [Produce], declared in the absent
    bounded_memory_queue.go.  It "returns true iff the request was
    enqueued; false means the queue is full (bounded reject, no blocking)
    or closed".  Channel-like: a worker blocked on dequeue receives the
    request directly; otherwise the request is buffered if there is room. *)
Definition Produce (item : stringRequest) (q : Queue) : bool * Queue :=
  if stopped q then (false, q)
  else
    match firstWaiting (workers q) with
    | Some i =>
        (true,
         {| capacity := capacity q; numConsumers := numConsumers q;
            items := items q;
            started := started q; stopped := stopped q; returned := returned q;
            workers := <[i := Busy item]> (workers q);
            accepted := accepted q ++ [item];
            delivered := delivered q ++ [item]; seen := seen q |})
    | None =>
        if decide (length (items q) < capacity q) then
          (true,
           {| capacity := capacity q; numConsumers := numConsumers q;
              items := items q ++ [item];
              started := started q; stopped := stopped q; returned := returned q;
              workers := workers q;
              accepted := accepted q ++ [item];
              delivered := delivered q; seen := seen q |})
        else (false, q)
    end.

Definition setWorker (i : nat) (w : Worker) (q : Queue) : Queue :=
  {| capacity := capacity q; numConsumers := numConsumers q; items := items q;
     started := started q; stopped := stopped q; returned := returned q;
     workers := <[i := w]> (workers q);
     accepted := accepted q; delivered := delivered q; seen := seen q |}.

(** Modelled from the spec: one step of worker [i], whose loop is in the
    absent bounded_memory_queue.go: "blocks on dequeue, invokes
    callback(req)", and exits "when the queue is closed and empty".  A
    worker that holds an item steps by invoking the callback, which is
    when the consumer sees the item; a worker in [callback] steps when the
    callback returns.  [None]: the worker cannot move (it is blocked on
    dequeue, or gone). *)
Definition workerStep (i : nat) (q : Queue) : option Queue :=
  match workers q !! i with
  | Some Ready =>
      match items q with
      | item :: rest =>
          Some {| capacity := capacity q; numConsumers := numConsumers q;
                  items := rest;
                  started := started q; stopped := stopped q;
                  returned := returned q;
                  workers := <[i := Busy item]> (workers q);
                  accepted := accepted q;
                  delivered := delivered q ++ [item]; seen := seen q |}
      | [] => Some (setWorker i (if stopped q then Exited else Waiting) q)
      end
  | Some (Busy item) =>
      Some {| capacity := capacity q; numConsumers := numConsumers q;
              items := items q;
              started := started q; stopped := stopped q;
              returned := returned q;
              workers := <[i := Calling item]> (workers q);
              accepted := accepted q;
              delivered := delivered q;
              seen := seen q ++ [item] |}
  | Some (Calling _) => Some (setWorker i Ready q)
  | Some Waiting | Some Exited | None => None
  end.

(** The items workers hold and have not yet passed to the callback. *)
Definition holds (w : Worker) : list stringRequest :=
  match w with Busy item => [item] | _ => [] end.

Definition holding (ws : list Worker) : list stringRequest := ws ≫= holds.

Definition wake (w : Worker) : Worker :=
  match w with Waiting => Exited | _ => w end.

(** Modelled from the spec: the beginning of [Shutdown], declared in the
    absent bounded_memory_queue.go: the queue "stops accepting producers";
    closing wakes the workers blocked on dequeue, which find the queue
    closed and empty and exit. *)
Definition shutdownBegin (q : Queue) : Queue :=
  {| capacity := capacity q; numConsumers := numConsumers q; items := items q;
     started := started q; stopped := true; returned := returned q;
     workers := wake <$> workers q;
     accepted := accepted q; delivered := delivered q; seen := seen q |}.

(** Modelled from the spec: the end of [Shutdown]: it "drains workers",
    that is, returns once every worker has exited. *)
Definition shutdownReturn (q : Queue) : option Queue :=
  if stopped q && forallb isExited (workers q) then
    Some {| capacity := capacity q; numConsumers := numConsumers q;
            items := items q;
            started := started q; stopped := stopped q; returned := true;
            workers := workers q;
            accepted := accepted q; delivered := delivered q; seen := seen q |}
  else None.

(** What the tasks around a queue can do next. *)
Inductive Action :=
| ActStart
| ActProduce (item : stringRequest)
| ActWorker (i : nat)
| ActShutdownBegin
| ActShutdownReturn.

(** One action; [None] when the action cannot happen in [q].  The
    lifecycle is constructed, started, shut down. *)
Definition step (a : Action) (q : Queue) : option Queue :=
  match a with
  | ActStart => if started q then None else Some (Start q)
  | ActProduce item => Some (snd (Produce item q))
  | ActWorker i => workerStep i q
  | ActShutdownBegin =>
      if started q && negb (stopped q) then Some (shutdownBegin q) else None
  | ActShutdownReturn => shutdownReturn q
  end.

Fixpoint run (acts : list Action) (q : Queue) : option Queue :=
  match acts with
  | [] => Some q
  | a :: rest =>
      match step a q with
      | Some q' => run rest q'
      | None => None
      end
  end.

(** What the calls of [Produce] in a run returned, in order. *)
Fixpoint answers (acts : list Action) (q : Queue) : option (list bool) :=
  match acts with
  | [] => Some []
  | a :: rest =>
      match step a q with
      | Some q' =>
          match a with
          | ActProduce item => cons (fst (Produce item q)) <$> answers rest q'
          | _ => answers rest q'
          end
      | None => None
      end
  end.

(** The states a queue of capacity [C] with [W] workers can be in. *)
Definition reachable (C W : nat) (q : Queue) : Prop :=
  exists acts, run acts (NewBoundedMemoryQueue C W) = Some q.

(** [consumerState] of the queue tests: the strings the callback has seen,
    as a Go [map[string]bool], and the flag [consumedOnce].  The mutex only
    serialises the calls and is not modelled. *)
Record consumerState := {
  consumed : gmap string bool;
  consumedOnce : bool
}.

(** [func newConsumerState(t *testing.T) *consumerState] *)
Definition newConsumerState : consumerState :=
  {| consumed := ∅; consumedOnce := false |}.

(** [func (s *consumerState) record(val string)] *)
Definition record (val : string) (s : consumerState) : consumerState :=
  {| consumed := <[val := true]> (consumed s); consumedOnce := true |}.

(** [func (s *consumerState) snapshot() map[string]bool]: a new map filled
    entry by entry from [s.consumed]. *)
Definition snapshot (s : consumerState) : gmap string bool :=
  map_fold (fun k v out => <[k := v]> out) ∅ (consumed s).

(** The comparison [assertConsumed] ends with: the snapshot equals
    [expected].  (The polling before it only waits.) *)
Definition assertConsumed (expected : gmap string bool) (s : consumerState) : bool :=
  bool_decide (snapshot s = expected).

(** The callback of the tests, [consumerState.record(item.(stringRequest).str)],
    run on the requests handed to it, in order. *)
Definition recordAll (seen : list stringRequest) (s : consumerState) : consumerState :=
  foldl (fun s item => record (str item) s) s seen.

(** What holds of a queue of capacity [C] with [W] workers in every state
    it can reach. *)
Record QueueInv (C W : nat) (q : Queue) : Prop := {
  qi_capacity : capacity q = C;
  qi_consumers : numConsumers q = W;
  qi_workers : length (workers q) = if started q then W else 0;
  qi_bound : length (items q) <= capacity q;
  qi_fifo : accepted q = delivered q ++ items q;
  qi_waiting : Waiting ∈ workers q -> items q = [] /\ stopped q = false;
  qi_exited : Exited ∈ workers q -> items q = [] /\ stopped q = true;
  qi_stopped : stopped q = true -> started q = true;
  qi_returned :
    returned q = true -> stopped q = true /\ forallb isExited (workers q) = true;
  qi_seen : delivered q ≡ₚ seen q ++ holding (workers q);
  qi_seen1 : W = 1 -> delivered q = seen q ++ holding (workers q)
}.

End internal.

(* ===================================================================== *)
(** ** Properties of the sender chain                                     *)
(* ===================================================================== *)

Import exporterhelper.

(** The configuration the last option of each kind carried. *)
Definition lastQueue (options : list Option) : option QueueSettings :=
  last (omap (fun op => match op with WithQueue c => Some c | _ => None end) options).

Definition lastRetry (options : list Option) : option RetrySettings :=
  last (omap (fun op => match op with WithRetry c => Some c | _ => None end) options).

Definition lastTimeout (options : list Option) : TimeoutSettings :=
  default NewDefaultTimeoutSettings
    (last (omap (fun op => match op with WithTimeout c => Some c | _ => None end) options)).

(** What the queue and retry slots hold after the options. *)
Definition queueImpl (signal : string) (c : option QueueSettings) : senderImpl :=
  match c with
  | None => BaseRequestSender
  | Some cfg =>
      if QueueEnabled cfg then QueueSender cfg signal
      else ErrorLoggingRequestSender queueDisabledMessage
  end.

Definition retryImpl (f : option loc) (c : option RetrySettings) : senderImpl :=
  match c with
  | None => BaseRequestSender
  | Some cfg =>
      if RetryEnabled cfg then RetrySender cfg f
      else ErrorLoggingRequestSender retryDisabledMessage
  end.

(** What an error-logging sender adds to the outcome of its next sender:
    the error is logged when it is not nil, and returned as is. *)
Definition logged (message : string) (req : Request)
    (out : Res error * Trace) : Res error * Trace :=
  match out with
  | (Val err, t) =>
      (Val err,
       if isNil err then t else t ++ [EvLogError message (Count req) err])
  | other => other
  end.

(** The panic an option ends in on an exporter with the given
    [requestExporter] flag, if any. *)
Definition aborts (re : bool) (op : Option) : option string :=
  match op with
  | WithQueue c =>
      if re then Some queuePanicMessage
      else if QueueEnabled c && (QueueSize c <? 0)%Z then Some invalidCapacityMessage
      else None
  | WithRetry c =>
      if RetryEnabled c && ((InitialInterval c <=? 0) || (MaxInterval c <=? 0))%Z
      then Some invalidRetryMessage
      else None
  | _ => None
  end.

Definition firstAbort (re : bool) (options : list Option) : option string :=
  head (omap (aborts re) options).

(** The lifecycle functions and capabilities the options leave. *)
Definition lastStart (options : list Option) : option nat :=
  default None
    (last (omap (fun op => match op with WithStart f => Some f | _ => None end) options)).

Definition lastShutdown (options : list Option) : option nat :=
  default None
    (last (omap (fun op => match op with WithShutdown f => Some f | _ => None end) options)).

Definition capabilitiesOf (options : list Option) : list bool :=
  omap (fun op => match op with WithCapabilities c => Some c | _ => None end) options.

(** Options that allocate a sender. *)
Definition allocates (op : Option) : bool :=
  match op with WithRetry _ | WithQueue _ => true | _ => false end.

Definition enablesQueue (op : Option) : bool :=
  match op with WithQueue c => QueueEnabled c | _ => false end.

Definition queueDisabled (options : list Option) : bool :=
  match lastQueue options with Some c => negb (QueueEnabled c) | None => false end.

Definition retryDisabled (options : list Option) : bool :=
  match lastRetry options with Some c => negb (RetryEnabled c) | None => false end.

Definition queueEnabled (options : list Option) : bool :=
  match lastQueue options with Some c => QueueEnabled c | None => false end.

Definition retryEnabled (options : list Option) : bool :=
  match lastRetry options with Some c => RetryEnabled c | None => false end.

(** [k] calls of the same method, one after the other. *)
Fixpoint callTimes (k : nat) (m : M unit) : M unit :=
  match k with
  | 0 => ret tt
  | S k' => let! _ := m in callTimes k' m
  end.

(** The exporter and the store [newBaseExporter] builds before it runs the
    options. *)
Definition initialExporter (sig : string) (re : bool) : baseExporter :=
  {| StartFunc := None; ShutdownFunc := None;
     requestExporter := re; signal_ := sig;
     queueSender := 0; obsrepSender := 1; retrySender := 2; timeoutSender := 3;
     onTemporaryFailure_ := None; consumerOptions := [] |}.

Definition initialStore : Heap :=
  [ {| impl := BaseRequestSender; nextSender := None |};
    {| impl := ObsrepSender; nextSender := None |};
    {| impl := BaseRequestSender; nextSender := None |};
    {| impl := TimeoutSender NewDefaultTimeoutSettings; nextSender := None |} ].

(** More of the state of an exporter under construction after the options
    [done]: the fields the options set, the size of the store, the
    temporary-failure handler, and the absence of links before
    [connectSenders]. *)
Record Inv2 (sig : string) (done : list Option)
    (o : baseExporter) (h : Heap) : Prop := {
  inv2_start : StartFunc o = lastStart done;
  inv2_shutdown : ShutdownFunc o = lastShutdown done;
  inv2_caps : consumerOptions o = capabilitiesOf done;
  inv2_size : length h = 4 + length (filter (fun op => allocates op = true) done);
  inv2_retry : forall cfg f n,
      h !! retrySender o = Some {| impl := RetrySender cfg f; nextSender := n |} ->
      f = onTemporaryFailure_ o;
  inv2_last : forall qc, lastQueue done = Some qc -> QueueEnabled qc = true ->
      onTemporaryFailure_ o = Some (queueSender o);
  inv2_none : existsb enablesQueue done = false -> onTemporaryFailure_ o = None;
  inv2_obj : forall l, onTemporaryFailure_ o = Some l ->
      exists cfg n, h !! l = Some {| impl := QueueSender cfg sig; nextSender := n |};
  inv2_unlinked : forall l obj, h !! l = Some obj -> nextSender obj = None
}.

(** The state of an exporter under construction after the options [done]. *)
Record Inv (sig : string) (re : bool) (done : list Option)
    (o : baseExporter) (h : Heap) : Prop := {
  inv_re : requestExporter o = re;
  inv_sig : signal_ o = sig;
  inv_distinct :
    queueSender o <> obsrepSender o /\ queueSender o <> retrySender o /\
    queueSender o <> timeoutSender o /\ obsrepSender o <> retrySender o /\
    obsrepSender o <> timeoutSender o /\ retrySender o <> timeoutSender o;
  inv_queue : exists n, h !! queueSender o =
      Some {| impl := queueImpl sig (lastQueue done); nextSender := n |};
  inv_obs : exists n, h !! obsrepSender o =
      Some {| impl := ObsrepSender; nextSender := n |};
  inv_retry : exists f n, h !! retrySender o =
      Some {| impl := retryImpl f (lastRetry done); nextSender := n |};
  inv_timeout : exists n, h !! timeoutSender o =
      Some {| impl := TimeoutSender (lastTimeout done); nextSender := n |}
}.

Lemma lastQueue_snoc done op :
  lastQueue (done ++ [op]) =
  match op with WithQueue c => Some c | _ => lastQueue done end.
Proof.
  unfold lastQueue. rewrite omap_app. destruct op; simpl;
    rewrite ?app_nil_r, ?last_snoc; reflexivity.
Qed.

Lemma lastRetry_snoc done op :
  lastRetry (done ++ [op]) =
  match op with WithRetry c => Some c | _ => lastRetry done end.
Proof.
  unfold lastRetry. rewrite omap_app. destruct op; simpl;
    rewrite ?app_nil_r, ?last_snoc; reflexivity.
Qed.

Lemma lastTimeout_snoc done op :
  lastTimeout (done ++ [op]) =
  match op with WithTimeout c => c | _ => lastTimeout done end.
Proof.
  unfold lastTimeout. rewrite omap_app. destruct op; simpl;
    rewrite ?app_nil_r, ?last_snoc; reflexivity.
Qed.

Lemma replaced_queue_None options :
  replaced options SlotQueue = false -> lastQueue options = None.
Proof.
  induction options as [|op options IH] using rev_ind; [reflexivity|].
  unfold replaced. rewrite existsb_app. simpl. rewrite orb_false_r.
  intros [H1 H2]%orb_false_elim. rewrite lastQueue_snoc.
  destruct op; simpl in H2; try discriminate; auto.
Qed.

Lemma replaced_retry_None options :
  replaced options SlotRetry = false -> lastRetry options = None.
Proof.
  induction options as [|op options IH] using rev_ind; [reflexivity|].
  unfold replaced. rewrite existsb_app. simpl. rewrite orb_false_r.
  intros [H1 H2]%orb_false_elim. rewrite lastRetry_snoc.
  destruct op; simpl in H2; try discriminate; auto.
Qed.

(** The four senders [newBaseExporter] starts from. *)
Lemma Inv_initial sig re :
  Inv sig re []
    {| StartFunc := None; ShutdownFunc := None;
       requestExporter := re; signal_ := sig;
       queueSender := 0; obsrepSender := 1; retrySender := 2; timeoutSender := 3;
       onTemporaryFailure_ := None; consumerOptions := [] |}
    [ {| impl := BaseRequestSender; nextSender := None |};
      {| impl := ObsrepSender; nextSender := None |};
      {| impl := BaseRequestSender; nextSender := None |};
      {| impl := TimeoutSender NewDefaultTimeoutSettings; nextSender := None |} ].
Proof.
  split; simpl; eauto.
  - repeat split; discriminate.
  - exists None, None. reflexivity.
Qed.

Lemma alloc_lookup_new (h : Heap) (x : senderObj) : (h ++ [x]) !! length h = Some x.
Proof. rewrite lookup_app_r by lia. rewrite Nat.sub_diag. reflexivity. Qed.

Lemma alloc_lookup_old (h : Heap) (l : loc) (o x : senderObj) :
  h !! l = Some o -> (h ++ [x]) !! l = Some o.
Proof. intros H. apply lookup_app_l_Some. exact H. Qed.

Lemma lookup_fresh (h : Heap) (l : loc) (o : senderObj) :
  h !! l = Some o -> l <> length h.
Proof. intros H%lookup_lt_Some. lia. Qed.

Lemma insert_lookup_new (h : Heap) (l : loc) (o x : senderObj) :
  h !! l = Some o -> <[l := x]> h !! l = Some x.
Proof. intros H%lookup_lt_Some. apply list_lookup_insert_eq. exact H. Qed.

Lemma insert_lookup_old (h : Heap) (l l' : loc) (o x : senderObj) :
  l <> l' -> h !! l' = Some o -> <[l := x]> h !! l' = Some o.
Proof. intros Hne H. rewrite list_lookup_insert_ne by exact Hne. exact H. Qed.

Ltac inv_fields :=
  split; simpl;
  rewrite ?lastQueue_snoc, ?lastRetry_snoc, ?lastTimeout_snoc;
  try solve [ repeat split; auto
            | eauto 10 using alloc_lookup_old, insert_lookup_old, insert_lookup_new ].

(** An option ends in the panic [aborts] names, or else leaves the
    exporter well formed. *)
Lemma applyOption_spec sig re done op o h :
  Inv sig re done o h ->
  match aborts re op with
  | Some msg => applyOption op o h = Panic msg
  | None => exists o' h', applyOption op o h = Val (o', h') /\
                          Inv sig re (done ++ [op]) o' h'
  end.
Proof.
  intros [Hre Hsig Hd [nq Hq] [nob Hob] [f [nr Hr]] [nt Ht]].
  destruct Hd as (D1 & D2 & D3 & D4 & D5 & D6).
  pose proof (lookup_fresh _ _ _ Hq) as Fq.
  pose proof (lookup_fresh _ _ _ Hob) as Fob.
  pose proof (lookup_fresh _ _ _ Hr) as Fr.
  pose proof (lookup_fresh _ _ _ Ht) as Ft.
  destruct op as [start|shutdown|ts|config|config|caps]; simpl.
  - do 2 eexists. split; [reflexivity|]. inv_fields.
  - do 2 eexists. split; [reflexivity|]. inv_fields.
  - rewrite Ht. do 2 eexists. split; [reflexivity|]. inv_fields.
  - unfold newRetrySender.
    destruct (RetryEnabled config) eqn:E; simpl.
    + destruct ((InitialInterval config <=? 0)%Z || (MaxInterval config <=? 0)%Z);
        simpl; [reflexivity|].
      do 2 eexists. split; [reflexivity|]. inv_fields.
      exists (onTemporaryFailure_ o), None. simpl. rewrite E. apply alloc_lookup_new.
    + do 2 eexists. split; [reflexivity|]. inv_fields.
      exists None, None. simpl. rewrite E. apply alloc_lookup_new.
  - rewrite Hre. destruct re; [reflexivity|].
    unfold newQueueSender.
    destruct (QueueEnabled config) eqn:E; simpl;
      [destruct (QueueSize config <? 0)%Z; simpl; [reflexivity|]|].
    + unfold setOnTemporaryFailure. simpl.
      rewrite (alloc_lookup_old _ _ _ _ Hr).
      destruct (lastRetry done) as [rc|] eqn:LR; simpl;
        [destruct (RetryEnabled rc) eqn:RE; simpl|].
      * do 2 eexists. split; [reflexivity|]. inv_fields.
        -- eexists. apply insert_lookup_old; [auto|]. simpl. rewrite E, Hsig.
           apply alloc_lookup_new.
        -- exists (Some (length h)), nr. rewrite ?LR. simpl. rewrite ?RE.
           eapply insert_lookup_new, alloc_lookup_old, Hr.
      * do 2 eexists. split; [reflexivity|]. inv_fields.
        -- eexists. simpl. rewrite E, Hsig. apply alloc_lookup_new.
        -- exists f, nr. rewrite ?LR. simpl. rewrite ?RE.
           eapply alloc_lookup_old. rewrite Hr. simpl. rewrite ?RE. reflexivity.
      * do 2 eexists. split; [reflexivity|]. inv_fields.
        -- eexists. simpl. rewrite E, Hsig. apply alloc_lookup_new.
        -- exists f, nr. rewrite ?LR. simpl.
           eapply alloc_lookup_old. rewrite Hr. reflexivity.
    + do 2 eexists. split; [reflexivity|]. inv_fields.
      eexists. simpl. rewrite E. apply alloc_lookup_new.
  - do 2 eexists. split; [reflexivity|]. inv_fields.
Qed.

Lemma applyOption_Val_Inv sig re done op o h o' h' :
  Inv sig re done o h -> applyOption op o h = Val (o', h') ->
  aborts re op = None /\ Inv sig re (done ++ [op]) o' h'.
Proof.
  intros HI Hv. pose proof (applyOption_spec sig re done op o h HI) as Hs.
  destruct (aborts re op) as [msg|].
  - rewrite Hs in Hv. discriminate.
  - destruct Hs as (o1 & h1 & E & HI1). rewrite E in Hv. injection Hv as <- <-. auto.
Qed.

Lemma replaced_cons op options s :
  replaced (op :: options) s = replaces op s || replaced options s.
Proof. reflexivity. Qed.

Lemma firstAbort_cons re op options :
  firstAbort re (op :: options) =
  match aborts re op with Some msg => Some msg | None => firstAbort re options end.
Proof. unfold firstAbort. simpl. destruct (aborts re op); reflexivity. Qed.

(** The loop over the options ends in the panic of the first option that
    aborts, and otherwise in a well-formed exporter. *)
Lemma applyOptions_spec sig re options : forall done o h,
  Inv sig re done o h ->
  match firstAbort re options with
  | Some msg => applyOptions options o h = Panic msg
  | None => exists o' h', applyOptions options o h = Val (o', h') /\
                          Inv sig re (done ++ options) o' h'
  end.
Proof.
  induction options as [|op options IH]; intros done o h HI.
  - exists o, h. rewrite app_nil_r. split; [reflexivity | exact HI].
  - rewrite firstAbort_cons.
    pose proof (applyOption_spec sig re done op o h HI) as Hop.
    change (applyOptions (op :: options) o h)
      with (bindRes (applyOption op o h) (fun '(o', h') => applyOptions options o' h')).
    destruct (aborts re op) as [msg|].
    + rewrite Hop. reflexivity.
    + destruct Hop as (o1 & h1 & Hv & HI1). rewrite Hv.
      change (bindRes (Val (o1, h1)) (fun '(o', h') => applyOptions options o' h'))
        with (applyOptions options o1 h1).
      specialize (IH (done ++ [op]) o1 h1 HI1).
      destruct (firstAbort re options) as [msg|]; [exact IH|].
      destruct IH as (o2 & h2 & Hv2 & HI2). rewrite <- app_assoc in HI2. eauto.
Qed.

Lemma setNextSender_Inv sig re done o h l next obj :
  Inv sig re done o h ->
  h !! l = Some obj ->
  exists h', setNextSender l next h = Val h' /\
             Inv sig re done o h' /\
             h' !! l = Some {| impl := impl obj; nextSender := Some next |} /\
             (forall l', l <> l' -> h' !! l' = h !! l').
Proof.
  intros [Hre Hsig Hd [nq Hq] [nob Hob] [f [nr Hr]] [nt Ht]] Hl.
  unfold setNextSender. rewrite Hl. eexists. split; [reflexivity|].
  assert (Hnew := insert_lookup_new h l obj
                    {| impl := impl obj; nextSender := Some next |} Hl).
  split; [|split; [exact Hnew|]].
  - split; auto.
    + destruct (decide (l = queueSender o)) as [->|Hne].
      * rewrite Hnew. rewrite Hq in Hl. inversion Hl. simpl. eauto.
      * rewrite list_lookup_insert_ne by exact Hne. eauto.
    + destruct (decide (l = obsrepSender o)) as [->|Hne].
      * rewrite Hnew. rewrite Hob in Hl. inversion Hl. simpl. eauto.
      * rewrite list_lookup_insert_ne by exact Hne. eauto.
    + destruct (decide (l = retrySender o)) as [->|Hne].
      * rewrite Hnew. rewrite Hr in Hl. inversion Hl. simpl. eauto.
      * rewrite list_lookup_insert_ne by exact Hne. eauto.
    + destruct (decide (l = timeoutSender o)) as [->|Hne].
      * rewrite Hnew. rewrite Ht in Hl. inversion Hl. simpl. eauto.
      * rewrite list_lookup_insert_ne by exact Hne. eauto.
  - intros l' Hne. apply list_lookup_insert_ne. exact Hne.
Qed.

Lemma Inv_slot_Some sig re done o h s :
  Inv sig re done o h -> exists obj, h !! slotLoc o s = Some obj.
Proof.
  intros [Hre Hsig Hd [nq Hq] [nob Hob] [f [nr Hr]] [nt Ht]].
  destruct s; simpl; eauto.
Qed.

Lemma connectSenders_spec sig re done o h :
  Inv sig re done o h ->
  exists h', connectSenders o h = Val h' /\ Inv sig re done o h' /\ linked o h'.
Proof.
  intros HI. unfold connectSenders.
  destruct (Inv_slot_Some _ _ _ _ _ SlotQueue HI) as [oq Hq]. simpl in Hq.
  destruct (setNextSender_Inv _ _ _ _ _ _ (obsrepSender o) _ HI Hq)
    as (h1 & E1 & HI1 & N1 & O1).
  rewrite E1. simpl.
  destruct (Inv_slot_Some _ _ _ _ _ SlotObsrep HI1) as [oo Ho]. simpl in Ho.
  destruct (setNextSender_Inv _ _ _ _ _ _ (retrySender o) _ HI1 Ho)
    as (h2 & E2 & HI2 & N2 & O2).
  rewrite E2. simpl.
  destruct (Inv_slot_Some _ _ _ _ _ SlotRetry HI2) as [or Hr]. simpl in Hr.
  destruct (setNextSender_Inv _ _ _ _ _ _ (timeoutSender o) _ HI2 Hr)
    as (h3 & E3 & HI3 & N3 & O3).
  exists h3. split; [exact E3|]. split; [exact HI3|].
  destruct HI as [_ _ (D1 & D2 & D3 & D4 & D5 & D6) _ _ _ _].
  unfold linked, slotNext. simpl.
  rewrite N3.
  rewrite (O3 (obsrepSender o)) by auto. rewrite N2.
  rewrite (O3 (queueSender o)) by auto. rewrite (O2 (queueSender o)) by auto.
  rewrite N1. auto.
Qed.

(** What [newBaseExporter] returns, by cases. *)
Lemma newBaseExporter_spec obsReportErr sig re options :
  (obsReportErr <> [] /\
   newBaseExporter obsReportErr sig re options = Val (inr obsReportErr)) \/
  (obsReportErr = [] /\
   exists msg, firstAbort re options = Some msg /\
               newBaseExporter obsReportErr sig re options = Panic msg) \/
  (obsReportErr = [] /\ firstAbort re options = None /\
   exists be h, newBaseExporter obsReportErr sig re options = Val (inl (be, h)) /\
                Inv sig re options be h /\ linked be h).
Proof.
  unfold newBaseExporter.
  destruct obsReportErr as [|e es]; simpl; [|left; split; [discriminate|reflexivity]].
  right.
  pose proof (applyOptions_spec sig re options [] _ _ (Inv_initial sig re)) as Hs.
  destruct (firstAbort re options) as [msg|].
  - left. split; [reflexivity|]. exists msg. simpl in Hs. rewrite Hs. auto.
  - right. destruct Hs as (o & h & Hv & HI). simpl in Hv. rewrite Hv. simpl.
    destruct (connectSenders_spec _ _ _ _ _ HI) as (h' & Ec & HI' & HL).
    rewrite Ec. simpl. split; [reflexivity|]. split; [reflexivity|]. eauto.
Qed.

Lemma newBaseExporter_returned obsReportErr sig re options be h :
  newBaseExporter obsReportErr sig re options = Val (inl (be, h)) ->
  Inv sig re options be h /\ linked be h.
Proof.
  intros H.
  destruct (newBaseExporter_spec obsReportErr sig re options)
    as [[_ E] | [(_ & msg & _ & E) | (_ & _ & be' & h' & E & HI & HL)]];
    rewrite E in H; try discriminate.
  inversion H; subst. auto.
Qed.

(** *** Lifecycle calls on a constructed exporter *)

Section Calls.

Variable env : Trace -> error.
Variable extSend : senderImpl -> (Request -> M error) -> Request -> M error.

Lemma sender_Shutdown_at (h : Heap) l obj t :
  h !! l = Some obj ->
  exists err, sender_Shutdown env h l t =
              (Val err, t ++ [EvShutdown (SenderAt l)]).
Proof.
  intros Hl. unfold sender_Shutdown. rewrite Hl.
  unfold bind, emit, ret. destruct (impl obj); eauto.
Qed.

Lemma sender_Start_at (h : Heap) l obj t :
  h !! l = Some obj ->
  exists err, sender_Start env h l t =
              (Val err, t ++ [EvStart (SenderAt l)]).
Proof.
  intros Hl. unfold sender_Start. rewrite Hl.
  unfold bind, emit, ret. destruct (impl obj); eauto.
Qed.

Lemma ShutdownFunc_Shutdown_at f t :
  exists err, ShutdownFunc_Shutdown env f t =
              (Val err, t ++ [EvShutdown (Wrapped f)]).
Proof. unfold ShutdownFunc_Shutdown, bind, emit, ret. destruct f; eauto. Qed.

Lemma StartFunc_Start_at f t :
  exists err, StartFunc_Start env f t =
              (Val err, t ++ [EvStart (Wrapped f)]).
Proof. unfold StartFunc_Start, bind, emit, ret. destruct f; eauto. Qed.

Lemma errorLogging_send fuel (h : Heap) l message next req t :
  h !! l = Some {| impl := ErrorLoggingRequestSender message;
                   nextSender := Some next |} ->
  send extSend (S fuel) h l req t =
  logged message req (send extSend fuel h next req (t ++ [EvSend l req])).
Proof.
  intros Hl. simpl. rewrite Hl. simpl.
  unfold bind, emit, errorLoggingRequestSender_send, baseRequestSender_send,
    bind, logged.
  destruct (send extSend fuel h next req (t ++ [EvSend l req])) as [[err| |] t'];
    try reflexivity.
  destruct err; reflexivity.
Qed.

Lemma baseRequestSender_send_at fuel (h : Heap) l next req t :
  h !! l = Some {| impl := BaseRequestSender; nextSender := Some next |} ->
  send extSend (S fuel) h l req t =
  send extSend fuel h next req (t ++ [EvSend l req]).
Proof.
  intros Hl. simpl. rewrite Hl. simpl.
  unfold bind, emit, baseRequestSender_send.
  reflexivity.
Qed.

End Calls.

Lemma linked_lookup sig re done be h :
  Inv sig re done be h -> linked be h ->
  h !! queueSender be =
    Some {| impl := queueImpl sig (lastQueue done);
            nextSender := Some (obsrepSender be) |} /\
  h !! obsrepSender be =
    Some {| impl := ObsrepSender; nextSender := Some (retrySender be) |} /\
  (exists f, h !! retrySender be =
    Some {| impl := retryImpl f (lastRetry done);
            nextSender := Some (timeoutSender be) |}).
Proof.
  intros [Hre Hsig Hd [nq Hq] [nob Hob] [f [nr Hr]] [nt Ht]] (L1 & L2 & L3).
  unfold slotNext in *. simpl in *.
  rewrite Hq in L1. rewrite Hob in L2. rewrite Hr in L3. simpl in *.
  subst. eauto.
Qed.

(* --------------------------------------------------------------------- *)
(** *** The chain after construction                                      *)
(* --------------------------------------------------------------------- *)

(** C1, as stated, fails: with no option at all the timeout slot is not
    replaced by any option, yet it holds a timeout sender with the default
    5 s deadline, which is not a pass-through. *)
Lemma unreplaced_slot_pass_through_counterexample :
  ~ (forall obsReportErr sig re options be h,
       newBaseExporter obsReportErr sig re options = Val (inl (be, h)) ->
       linked be h /\
       (forall s, replaced options s = false ->
          exists i, slotImpl be h s = Some i /\ isPassThrough i = true) /\
       (forall ext fuel req,
          baseExporter_send ext fuel be h req = send ext fuel h (queueSender be) req)).
Proof.
  intros H.
  destruct (H [] "traces"%string false [] _ _ eq_refl) as (_ & Hp & _).
  destruct (Hp SlotTimeout eq_refl) as (i & Hi & Hpt).
  vm_compute in Hi. inversion Hi; subst. discriminate Hpt.
Qed.

(** C1 (amended): every exporter returned by [newBaseExporter] has its
    senders linked queue -> observability -> retry -> timeout; a queue or
    retry slot that no option replaced is a bare pass-through, the
    observability slot holds the factory's sender and the timeout slot a
    timeout sender with the last configured (or default) settings; [send]
    calls the head, the queue slot; and no method of the exporter changes
    the exporter or the links. *)
Theorem sender_chain_linked obsReportErr sig re options be h :
  newBaseExporter obsReportErr sig re options = Val (inl (be, h)) ->
  linked be h /\
  (replaced options SlotQueue = false ->
     slotImpl be h SlotQueue = Some BaseRequestSender) /\
  (replaced options SlotRetry = false ->
     slotImpl be h SlotRetry = Some BaseRequestSender) /\
  slotImpl be h SlotObsrep = Some ObsrepSender /\
  slotImpl be h SlotTimeout = Some (TimeoutSender (lastTimeout options)) /\
  (forall ext fuel req,
     baseExporter_send ext fuel be h req = send ext fuel h (queueSender be) req) /\
  (forall env ext fuel op t err be' h' t',
     runOp env ext fuel op be h t = (Val (err, be', h'), t') ->
     be' = be /\ h' = h /\ linked be' h').
Proof.
  intros Hnew.
  destruct (newBaseExporter_returned _ _ _ _ _ _ Hnew) as [HI HL].
  pose proof HI as [Hre Hsig Hd [nq Hq] [nob Hob] [f [nr Hr]] [nt Ht]].
  unfold slotImpl. simpl.
  split; [exact HL|].
  split. { intros Hrep. rewrite Hq. simpl.
           rewrite (replaced_queue_None _ Hrep). reflexivity. }
  split. { intros Hrep. rewrite Hr. simpl.
           rewrite (replaced_retry_None _ Hrep). reflexivity. }
  split. { rewrite Hob. reflexivity. }
  split. { rewrite Ht. reflexivity. }
  split. { reflexivity. }
  intros env ext fuel op t err be' h' t' Hrun.
  assert (be' = be /\ h' = h) as [-> ->].
  { destruct op; simpl in Hrun; unfold bind, ret in Hrun.
    - destruct (baseExporter_send ext fuel be h req t) as [[e| |] t0];
        inversion Hrun; auto.
    - destruct (Start env be h t) as [[e| |] t0]; inversion Hrun; auto.
    - destruct (Shutdown env be h t) as [[e| |] t0]; inversion Hrun; auto. }
  auto.
Qed.

Lemma sender_chain_linked_witness :
  exists be h,
    newBaseExporter [] "traces"%string false
      [WithRetry {| RetryEnabled := false; InitialInterval := 5;
                    MaxInterval := 30; MaxElapsedTime := 300 |};
       WithTimeout {| Timeout := 0 |}] = Val (inl (be, h)) /\
    linked be h /\
    slotImpl be h SlotQueue = Some BaseRequestSender.
Proof.
  eexists. eexists. split; [reflexivity|].
  pose proof (sender_chain_linked [] "traces"%string false
                [WithRetry {| RetryEnabled := false; InitialInterval := 5;
                              MaxInterval := 30; MaxElapsedTime := 300 |};
                 WithTimeout {| Timeout := 0 |}] _ _ eq_refl) as (HL & HQ & _).
  split; [exact HL | exact (HQ eq_refl)].
Defined.




(** C3: [Shutdown] of a constructed exporter calls the retry sender's
    shutdown, then the queue sender's, then the wrapped exporter's, all
    three whatever the earlier ones returned, and returns their errors
    combined in that order. *)
Theorem Shutdown_order_and_errors env obsReportErr sig re options be h t :
  newBaseExporter obsReportErr sig re options = Val (inl (be, h)) ->
  exists e1 e2 e3 t1 t2 t3,
    sender_Shutdown env h (retrySender be) t = (Val e1, t1) /\
    sender_Shutdown env h (queueSender be) t1 = (Val e2, t2) /\
    ShutdownFunc_Shutdown env (ShutdownFunc be) t2 = (Val e3, t3) /\
    Shutdown env be h t = (Val (Combine [e1; e2; e3]), t3) /\
    Combine [e1; e2; e3] = e1 ++ e2 ++ e3 /\
    t3 = t ++ [EvShutdown (SenderAt (retrySender be));
               EvShutdown (SenderAt (queueSender be));
               EvShutdown (Wrapped (ShutdownFunc be))].
Proof.
  intros Hnew.
  destruct (newBaseExporter_returned _ _ _ _ _ _ Hnew) as [HI _].
  destruct (Inv_slot_Some _ _ _ _ _ SlotRetry HI) as [ro Hr].
  destruct (Inv_slot_Some _ _ _ _ _ SlotQueue HI) as [qo Hq].
  simpl in Hr, Hq.
  destruct (sender_Shutdown_at env h _ _ t Hr) as [e1 E1].
  destruct (sender_Shutdown_at env h _ _
              (t ++ [EvShutdown (SenderAt (retrySender be))]) Hq) as [e2 E2].
  destruct (ShutdownFunc_Shutdown_at env (ShutdownFunc be)
              ((t ++ [EvShutdown (SenderAt (retrySender be))]) ++
               [EvShutdown (SenderAt (queueSender be))])) as [e3 E3].
  exists e1, e2, e3. do 3 eexists.
  split; [exact E1|]. split; [exact E2|]. split; [exact E3|].
  split; [|split].
  - unfold Shutdown, bind. rewrite E1, E2, E3. reflexivity.
  - unfold Combine. simpl. rewrite app_nil_r. reflexivity.
  - rewrite <- !app_assoc. reflexivity.
Qed.

Lemma Shutdown_order_and_errors_witness :
  exists be h,
    newBaseExporter [] "traces"%string false [WithShutdown (Some 7)] =
      Val (inl (be, h)) /\
    exists e1 e2 e3 t1 t2 t3,
      sender_Shutdown (fun _ => ["transport refused"%string]) h (retrySender be) [] =
        (Val e1, t1) /\
      sender_Shutdown (fun _ => ["transport refused"%string]) h (queueSender be) t1 =
        (Val e2, t2) /\
      ShutdownFunc_Shutdown (fun _ => ["transport refused"%string]) (ShutdownFunc be) t2 =
        (Val e3, t3) /\
      Shutdown (fun _ => ["transport refused"%string]) be h [] =
        (Val (Combine [e1; e2; e3]), t3) /\
      Combine [e1; e2; e3] = e1 ++ e2 ++ e3 /\
      t3 = [] ++ [EvShutdown (SenderAt (retrySender be));
                  EvShutdown (SenderAt (queueSender be));
                  EvShutdown (Wrapped (ShutdownFunc be))].
Proof.
  eexists. eexists. split; [reflexivity|].
  apply (Shutdown_order_and_errors (fun _ => ["transport refused"%string])
           [] "traces"%string false [WithShutdown (Some 7)] _ _ [] eq_refl).
Defined.

(** C6: [Start] of a constructed exporter first starts the wrapped
    exporter; when that returns an error, [Start] returns it and the queue
    sender is not started; otherwise the queue sender is started next. *)
Theorem Start_transport_before_queue env obsReportErr sig re options be h t :
  newBaseExporter obsReportErr sig re options = Val (inl (be, h)) ->
  exists err,
    StartFunc_Start env (StartFunc be) t =
      (Val err, t ++ [EvStart (Wrapped (StartFunc be))]) /\
    (err <> [] ->
       Start env be h t = (Val err, t ++ [EvStart (Wrapped (StartFunc be))])) /\
    (err = [] ->
       exists qerr,
         Start env be h t =
         (Val qerr, t ++ [EvStart (Wrapped (StartFunc be));
                          EvStart (SenderAt (queueSender be))])).
Proof.
  intros Hnew.
  destruct (newBaseExporter_returned _ _ _ _ _ _ Hnew) as [HI _].
  destruct (Inv_slot_Some _ _ _ _ _ SlotQueue HI) as [qo Hq]. simpl in Hq.
  destruct (StartFunc_Start_at env (StartFunc be) t) as [err E].
  exists err. split; [exact E|]. split.
  - intros Hne. unfold Start, bind. rewrite E.
    destruct err; [contradiction|reflexivity].
  - intros ->. unfold Start, bind. rewrite E. simpl.
    destruct (sender_Start_at env h _ _
                (t ++ [EvStart (Wrapped (StartFunc be))]) Hq) as [qerr Eq].
    exists qerr. rewrite Eq, <- app_assoc. reflexivity.
Qed.

Lemma Start_transport_before_queue_witness :
  exists be h,
    newBaseExporter [] "traces"%string false [WithStart (Some 3)] =
      Val (inl (be, h)) /\
    exists err,
      StartFunc_Start (fun _ => ["not ready"%string]) (StartFunc be) [] =
        (Val err, [] ++ [EvStart (Wrapped (StartFunc be))]) /\
      (err <> [] ->
         Start (fun _ => ["not ready"%string]) be h [] =
         (Val err, [] ++ [EvStart (Wrapped (StartFunc be))])) /\
      (err = [] ->
         exists qerr,
           Start (fun _ => ["not ready"%string]) be h [] =
           (Val qerr, [] ++ [EvStart (Wrapped (StartFunc be));
                             EvStart (SenderAt (queueSender be))])).
Proof.
  eexists. eexists. split; [reflexivity|].
  apply (Start_transport_before_queue (fun _ => ["not ready"%string])
           [] "traces"%string false [WithStart (Some 3)] _ _ [] eq_refl).
Defined.

(** The request's callback: [OnProcessingFinished] calls it once per call
    when one is set, and does nothing when it is nil. *)
Lemma OnProcessingFinished_fires req t :
  OnProcessingFinished req t =
  (Val tt,
   t ++ match processingFinishedCallback req with
        | Some callback => [EvProcessingFinished callback]
        | None => []
        end).
Proof.
  unfold OnProcessingFinished.
  destruct (processingFinishedCallback req); simpl;
    [reflexivity | rewrite app_nil_r; reflexivity].
Qed.

(** A whole [send] through a chain with queue and retry disabled, where
    the observability sender forwards and the timeout sender fails: both
    error-logging senders log on the way back, innermost first. *)
Example send_through_disabled_stages :
  let ext := fun i (next : Request -> M error) req =>
               match i with
               | TimeoutSender _ => ret ["deadline exceeded"%string]
               | _ => next req
               end in
  let req := {| payload := "spans"%string; Count := 3;
                processingFinishedCallback := None |} in
  exists be h,
    newBaseExporter [] "traces"%string false
      [WithQueue {| QueueEnabled := false; NumConsumers := 10; QueueSize := 1000 |};
       WithRetry {| RetryEnabled := false; InitialInterval := 5;
                    MaxInterval := 30; MaxElapsedTime := 300 |}] =
      Val (inl (be, h)) /\
    baseExporter_send ext 4 be h req [] =
    (Val ["deadline exceeded"%string],
     [EvSend 4 req; EvSend 1 req; EvSend 5 req; EvSend 3 req;
      EvLogError retryDisabledMessage 3 ["deadline exceeded"%string];
      EvLogError queueDisabledMessage 3 ["deadline exceeded"%string]]).
Proof. intros ext req. eexists. eexists. split; reflexivity. Qed.

(* --------------------------------------------------------------------- *)
(** *** More about construction                                           *)
(* --------------------------------------------------------------------- *)

Lemma lastStart_snoc done op :
  lastStart (done ++ [op]) =
  match op with WithStart f => f | _ => lastStart done end.
Proof.
  unfold lastStart. rewrite omap_app. destruct op; simpl;
    rewrite ?app_nil_r, ?last_snoc; reflexivity.
Qed.

Lemma lastShutdown_snoc done op :
  lastShutdown (done ++ [op]) =
  match op with WithShutdown f => f | _ => lastShutdown done end.
Proof.
  unfold lastShutdown. rewrite omap_app. destruct op; simpl;
    rewrite ?app_nil_r, ?last_snoc; reflexivity.
Qed.

Lemma capabilitiesOf_snoc done op :
  capabilitiesOf (done ++ [op]) =
  capabilitiesOf done ++ match op with WithCapabilities c => [c] | _ => [] end.
Proof.
  unfold capabilitiesOf. rewrite omap_app. destruct op; reflexivity.
Qed.

Lemma allocated_snoc done op :
  length (filter (fun op => allocates op = true) (done ++ [op])) =
  length (filter (fun op => allocates op = true) done) +
  (if allocates op then 1 else 0).
Proof.
  rewrite filter_app, length_app. destruct op; reflexivity.
Qed.

Lemma enablesQueue_snoc done op :
  existsb enablesQueue (done ++ [op]) = existsb enablesQueue done || enablesQueue op.
Proof. rewrite existsb_app. simpl. rewrite orb_false_r. reflexivity. Qed.

Lemma Inv2_initial sig re :
  Inv2 sig []
    {| StartFunc := None; ShutdownFunc := None;
       requestExporter := re; signal_ := sig;
       queueSender := 0; obsrepSender := 1; retrySender := 2; timeoutSender := 3;
       onTemporaryFailure_ := None; consumerOptions := [] |}
    [ {| impl := BaseRequestSender; nextSender := None |};
      {| impl := ObsrepSender; nextSender := None |};
      {| impl := BaseRequestSender; nextSender := None |};
      {| impl := TimeoutSender NewDefaultTimeoutSettings; nextSender := None |} ].
Proof.
  split; simpl; try reflexivity; try discriminate.
  intros [|[|[|[|l]]]] obj; simpl; intros [= <-]; reflexivity.
Qed.

Lemma unlinked_alloc (h : Heap) i :
  (forall l obj, h !! l = Some obj -> nextSender obj = None) ->
  forall l obj, (h ++ [{| impl := i; nextSender := None |}]) !! l = Some obj ->
                nextSender obj = None.
Proof.
  intros Hu l obj Hl. apply lookup_app_Some in Hl as [Hl | [_ Hl]].
  - eapply Hu, Hl.
  - apply list_lookup_singleton_Some in Hl as [_ <-]. reflexivity.
Qed.

Lemma unlinked_insert (h : Heap) l0 i :
  (forall l obj, h !! l = Some obj -> nextSender obj = None) ->
  forall l obj, <[l0 := {| impl := i; nextSender := None |}]> h !! l = Some obj ->
                nextSender obj = None.
Proof.
  intros Hu l obj Hl.
  apply list_lookup_insert_Some in Hl as [(_ & <- & _) | (_ & Hl)].
  - reflexivity.
  - eapply Hu, Hl.
Qed.

Ltac inv2_snoc :=
  rewrite ?lastStart_snoc, ?lastShutdown_snoc, ?capabilitiesOf_snoc,
    ?allocated_snoc, ?enablesQueue_snoc, ?lastQueue_snoc; simpl;
  rewrite ?app_nil_r, ?orb_false_r, ?Nat.add_0_r.

(** The second invariant is kept by every option that does not panic. *)
Lemma applyOption_Inv2 sig re done op o h o' h' :
  Inv sig re done o h -> Inv2 sig done o h ->
  applyOption op o h = Val (o', h') ->
  Inv2 sig (done ++ [op]) o' h'.
Proof.
  intros [Hre Hsig Hd [nq Hq] [nob Hob] [f [nr Hr]] [nt Ht]]
         [Hst Hsh Hcap Hsz Hrt Hlast Hnone Hobj Hun].
  destruct Hd as (D1 & D2 & D3 & D4 & D5 & D6).
  pose proof (lookup_fresh _ _ _ Hq) as Fq.
  pose proof (lookup_fresh _ _ _ Hr) as Fr.
  assert (Hobj_alloc : forall x l, onTemporaryFailure_ o = Some l ->
            exists cfg n, (h ++ [x]) !! l =
                          Some {| impl := QueueSender cfg sig; nextSender := n |}).
  { intros x l Hl. destruct (Hobj l Hl) as (cfg & n & E).
    exists cfg, n. eapply alloc_lookup_old, E. }
  destruct op as [start|shutdown|ts|config|config|caps]; simpl.
  - intros [= <- <-]. split; simpl; inv2_snoc; auto.
  - intros [= <- <-]. split; simpl; inv2_snoc; auto.
  - rewrite Ht. intros [= <- <-].
    pose proof (Hun _ _ Ht) as Hnt. simpl in Hnt. subst nt.
    split; simpl; inv2_snoc; auto.
    + rewrite length_insert. exact Hsz.
    + intros cfg f0 n. rewrite list_lookup_insert_ne by auto. apply Hrt.
    + intros l Hl. destruct (Hobj l Hl) as (cfg & n & E).
      exists cfg, n. rewrite list_lookup_insert_ne; [exact E|].
      intros <-. rewrite Ht in E. discriminate.
    + apply unlinked_insert. exact Hun.
  - unfold newRetrySender.
    destruct (RetryEnabled config) eqn:E; simpl;
      [destruct ((InitialInterval config <=? 0)%Z || (MaxInterval config <=? 0)%Z);
         simpl; [discriminate|]|];
      intros [= <- <-]; split; simpl; inv2_snoc; auto.
    + rewrite length_app. simpl. lia.
    + intros cfg f0 n. rewrite alloc_lookup_new. intros [= _ <- _]. reflexivity.
    + apply unlinked_alloc. exact Hun.
    + rewrite length_app. simpl. lia.
    + intros cfg f0 n. rewrite alloc_lookup_new. discriminate.
    + apply unlinked_alloc. exact Hun.
  - destruct (requestExporter o); [discriminate|].
    unfold newQueueSender.
    destruct (QueueEnabled config) eqn:E; simpl;
      [destruct (QueueSize config <? 0)%Z; simpl; [discriminate|]|].
    + unfold setOnTemporaryFailure. simpl.
      rewrite (alloc_lookup_old _ _ _ _ Hr).
      pose proof (Hun _ _ Hr) as Hnr. simpl in Hnr. subst nr.
      assert (Hnewq : forall x, (h ++ [{| impl := QueueSender config (signal_ o);
                                          nextSender := None |}]) !! length h = x ->
                x = Some {| impl := QueueSender config sig; nextSender := None |}).
      { intros x <-. rewrite alloc_lookup_new, Hsig. reflexivity. }
      destruct (retryImpl f (lastRetry done)) eqn:RI; intros [= <- <-];
        split; simpl; inv2_snoc; rewrite ?E; auto;
        try (rewrite ?length_insert, length_app; simpl; lia);
        try (intros _; reflexivity).
      all: try solve [ intros Hx; rewrite ?orb_true_r in Hx; discriminate ].
      all: try solve [ intros cfg0 f0 n0; rewrite (alloc_lookup_old _ _ _ _ Hr);
                       discriminate ].
      all: try solve [ intros cfg0 f0 n0;
                       erewrite insert_lookup_new by (eapply alloc_lookup_old, Hr);
                       intros [= _ <- _]; reflexivity ].
      all: try solve [ intros l [= <-]; exists config, None;
                       rewrite ?list_lookup_insert_ne by auto;
                       rewrite alloc_lookup_new, Hsig; reflexivity ].
      all: try solve [ apply unlinked_insert, unlinked_alloc; exact Hun
                     | apply unlinked_alloc; exact Hun ].
    + intros [= <- <-]. split; simpl; inv2_snoc; rewrite ?E; auto.
      all: try solve [ rewrite length_app; simpl; lia ].
      all: try solve [ intros cfg f0 n Hx;
                       rewrite lookup_app_l in Hx by (eapply lookup_lt_Some, Hr);
                       exact (Hrt _ _ _ Hx) ].
      all: try solve [ discriminate ].
      all: try solve [ apply unlinked_alloc; exact Hun ].
      all: try solve [ intros qc [= <-]; congruence ].
      all: try solve [ rewrite orb_false_r; exact Hnone ].
  - intros [= <- <-]. split; simpl; inv2_snoc; auto.
    rewrite Hcap. reflexivity.
Qed.

Lemma applyOptions_Inv_both sig re options : forall done o h o' h',
  Inv sig re done o h -> Inv2 sig done o h ->
  applyOptions options o h = Val (o', h') ->
  Inv sig re (done ++ options) o' h' /\ Inv2 sig (done ++ options) o' h'.
Proof.
  induction options as [|op options IH]; intros done o h o' h' HI HI2; simpl.
  - intros [= <- <-]. rewrite app_nil_r. auto.
  - destruct (applyOption op o h) as [[o1 h1]| |] eqn:Hv; simpl; try discriminate.
    destruct (applyOption_Val_Inv _ _ _ _ _ _ _ _ HI Hv) as [_ HI1].
    pose proof (applyOption_Inv2 _ _ _ _ _ _ _ _ HI HI2 Hv) as HI21.
    intros Hrest. rewrite (app_assoc done [op] options : done ++ op :: options = _).
    eapply IH; eauto.
Qed.

Lemma setNextSender_effect l next (h h' : Heap) :
  setNextSender l next h = Val h' ->
  length h' = length h /\
  (forall l' : loc, impl <$> h' !! l' = impl <$> h !! l') /\
  (forall l' : loc, l <> l' -> h' !! l' = h !! l').
Proof.
  unfold setNextSender. destruct (h !! l) as [obj|] eqn:Hl; [|discriminate].
  intros [= <-]. split; [apply length_insert|]. split.
  - intros l'. destruct (decide (l = l')) as [<-|Hne].
    + rewrite (insert_lookup_new _ _ _ _ Hl), Hl. reflexivity.
    + rewrite list_lookup_insert_ne by exact Hne. reflexivity.
  - intros l' Hne. apply list_lookup_insert_ne. exact Hne.
Qed.

Lemma connectSenders_effect be (h h' : Heap) :
  connectSenders be h = Val h' ->
  length h' = length h /\
  (forall l : loc, impl <$> h' !! l = impl <$> h !! l) /\
  (forall l : loc, l <> queueSender be -> l <> obsrepSender be -> l <> retrySender be ->
             h' !! l = h !! l).
Proof.
  unfold connectSenders.
  destruct (setNextSender (queueSender be) (obsrepSender be) h) as [h1| |] eqn:E1;
    try discriminate. simpl.
  destruct (setNextSender (obsrepSender be) (retrySender be) h1) as [h2| |] eqn:E2;
    try discriminate. simpl.
  intros E3.
  apply setNextSender_effect in E1 as (L1 & I1 & O1).
  apply setNextSender_effect in E2 as (L2 & I2 & O2).
  apply setNextSender_effect in E3 as (L3 & I3 & O3).
  split; [congruence|]. split.
  - intros l. rewrite I3, I2, I1. reflexivity.
  - intros l Hq Ho Hr. rewrite O3, O2, O1 by auto. reflexivity.
Qed.

(** A returned exporter is the result of the options followed by
    [connectSenders]. *)
Lemma newBaseExporter_built obsReportErr sig re options be h :
  newBaseExporter obsReportErr sig re options = Val (inl (be, h)) ->
  exists h0, Inv sig re options be h0 /\ Inv2 sig options be h0 /\
             connectSenders be h0 = Val h.
Proof.
  unfold newBaseExporter. destruct obsReportErr; simpl; [|discriminate].
  match goal with
  | |- bindRes (applyOptions _ ?o ?h0) _ = _ -> _ =>
      destruct (applyOptions options o h0) as [[o1 h1]| |] eqn:EA
  end; simpl; try discriminate.
  destruct (connectSenders o1 h1) as [h2| |] eqn:EC; simpl; try discriminate.
  intros [= <- <-].
  destruct (applyOptions_Inv_both sig re options [] _ _ _ _
              (Inv_initial sig re) (Inv2_initial sig re) EA) as [HI HI2].
  exists h1. auto.
Qed.

Section Forwarding.

Variable ext : senderImpl -> (Request -> M error) -> Request -> M error.
Variable transport : Request -> M error.

(** The senders declared outside [common.go] hand the request to their
    next sender once, and the timeout sender hands it to the transport. *)
Hypothesis ext_forwards : forall i next req,
  ext i next req =
  match i with TimeoutSender _ => transport req | _ => next req end.

Lemma send_at fuel (h : Heap) l i nx req t :
  h !! l = Some {| impl := i; nextSender := nx |} ->
  send ext (S fuel) h l req t =
  let call := match nx with
              | Some n => send ext fuel h n req
              | None => panic nilDeref
              end in
  match i with
  | TimeoutSender _ => transport req (t ++ [EvSend l req])
  | ErrorLoggingRequestSender message =>
      logged message req (call (t ++ [EvSend l req]))
  | _ => call (t ++ [EvSend l req])
  end.
Proof.
  intros Hl. simpl. rewrite Hl. simpl. unfold bind, emit.
  destruct i; rewrite ?ext_forwards;
    unfold errorLoggingRequestSender_send, baseRequestSender_send, bind, logged;
    destruct nx as [n|]; simpl; try reflexivity.
  destruct (send ext fuel h n req (t ++ [EvSend l req])) as [[err| |] t'];
    try reflexivity.
  destruct err; reflexivity.
Qed.

End Forwarding.

Lemma newBaseExporter_options obsReportErr sig re options be h :
  newBaseExporter obsReportErr sig re options = Val (inl (be, h)) ->
  exists h0, applyOptions options (initialExporter sig re) initialStore = Val (be, h0) /\
             connectSenders be h0 = Val h.
Proof.
  unfold newBaseExporter. destruct obsReportErr; simpl; [|discriminate].
  fold (initialExporter sig re). fold initialStore.
  destruct (applyOptions options (initialExporter sig re) initialStore)
    as [[o1 h1]| |] eqn:EA; simpl; try discriminate.
  destruct (connectSenders o1 h1) as [h2| |] eqn:EC; simpl; try discriminate.
  intros [= <- <-]. eauto.
Qed.

Lemma applyOptions_app options1 options2 o h :
  applyOptions (options1 ++ options2) o h =
  bindRes (applyOptions options1 o h) (fun '(o', h') => applyOptions options2 o' h').
Proof.
  revert o h. induction options1 as [|op options1 IH]; intros o h; simpl.
  - reflexivity.
  - destruct (applyOption op o h) as [[o1 h1]| |]; simpl; auto.
Qed.

Lemma lastQueue_app_unreplaced options1 options2 :
  replaced options2 SlotQueue = false ->
  lastQueue (options1 ++ options2) = lastQueue options1.
Proof.
  induction options2 as [|op options2 IH] using rev_ind; intros Hrep.
  - rewrite app_nil_r. reflexivity.
  - unfold replaced in Hrep. rewrite existsb_app in Hrep. simpl in Hrep.
    rewrite orb_false_r in Hrep. apply orb_false_elim in Hrep as [H1 H2].
    rewrite app_assoc, lastQueue_snoc. destruct op; simpl in H2; try discriminate; auto.
Qed.

(** Options other than [WithQueue] leave the queue slot and the
    temporary-failure handler alone. *)
Lemma applyOptions_unreplaced options : forall o h o' h',
  replaced options SlotQueue = false ->
  applyOptions options o h = Val (o', h') ->
  queueSender o' = queueSender o /\ onTemporaryFailure_ o' = onTemporaryFailure_ o.
Proof.
  induction options as [|op options IH]; intros o h o' h' Hrep; simpl.
  - intros [= <- <-]. auto.
  - rewrite replaced_cons in Hrep. apply orb_false_elim in Hrep as [Hop Hrep].
    destruct (applyOption op o h) as [[o1 h1]| |] eqn:E1; simpl; try discriminate.
    intros Hrest. destruct (IH _ _ _ _ Hrep Hrest) as [-> ->].
    destruct op; simpl in Hop; try discriminate; simpl in E1.
    + injection E1 as <- <-. auto.
    + injection E1 as <- <-. auto.
    + destruct (h !! timeoutSender o) as [[[] ?]|]; try discriminate.
      injection E1 as <- <-. auto.
    + unfold newRetrySender in E1. destruct (RetryEnabled config); simpl in E1;
        [destruct ((InitialInterval config <=? 0)%Z || (MaxInterval config <=? 0)%Z);
           simpl in E1; [discriminate|]|];
        injection E1 as <- <-; auto.
    + injection E1 as <- <-. auto.
Qed.

(* --------------------------------------------------------------------- *)
(** *** Further properties of the exporter                                *)
(* --------------------------------------------------------------------- *)

(** The timeout sender of a returned exporter: configured by the last
    [WithTimeout], and the end of the chain. *)
Lemma timeout_sender_lookup obsReportErr sig re options be h :
  newBaseExporter obsReportErr sig re options = Val (inl (be, h)) ->
  h !! timeoutSender be =
  Some {| impl := TimeoutSender (lastTimeout options); nextSender := None |}.
Proof.
  intros (h0 & HI & HI2 & Hc)%newBaseExporter_built.
  destruct (connectSenders_effect _ _ _ Hc) as (_ & _ & Hother).
  destruct HI as [_ _ (D1 & D2 & D3 & D4 & D5 & D6) _ _ _ [nt Ht]].
  rewrite Hother by auto. rewrite Ht.
  pose proof (inv2_unlinked _ _ _ _ HI2 _ _ Ht) as Hn. simpl in Hn. rewrite Hn.
  reflexivity.
Qed.

(** [send] on a sender of a type declared outside [common.go]. *)
Lemma send_outside_at ext fuel (h : Heap) l i nx req t :
  h !! l = Some {| impl := i; nextSender := nx |} ->
  match i with
  | BaseRequestSender | ErrorLoggingRequestSender _ => False
  | _ => True
  end ->
  send ext (S fuel) h l req t =
  ext i (baseRequestSender_send (send ext fuel h <$> nx)) req (t ++ [EvSend l req]).
Proof.
  intros Hl Hi. simpl. rewrite Hl. simpl. unfold bind, emit.
  destruct i; try contradiction; destruct nx; reflexivity.
Qed.

(** C5: when the last [WithQueue] (or [WithRetry]) option applied has
    [Enabled = false], the queue (retry) slot of the returned exporter is
    an error-logging sender.  Whatever the senders behind it do, [send]
    through it calls the next sender (the observability sender, resp. the
    timeout sender) once with the same request and returns what that
    sender returns: a nil error as it is, a non-nil error as it is after
    one log record carrying the stage's message, the item count and the
    error.  With the queue disabled [send] is thus the synchronous call of
    the observability sender. *)
Theorem disabled_stage_is_error_logging_pass_through
    ext obsReportErr sig re options be h :
  newBaseExporter obsReportErr sig re options = Val (inl (be, h)) ->
  (forall cfg, lastQueue options = Some cfg -> QueueEnabled cfg = false ->
     slotImpl be h SlotQueue = Some (ErrorLoggingRequestSender queueDisabledMessage) /\
     forall fuel req t,
       let next :=
         ext ObsrepSender
           (baseRequestSender_send (Some (send ext fuel h (retrySender be)))) req
           (t ++ [EvSend (queueSender be) req; EvSend (obsrepSender be) req]) in
       baseExporter_send ext (S (S fuel)) be h req t =
         logged queueDisabledMessage req next /\
       (forall t', next = (Val [], t') ->
          baseExporter_send ext (S (S fuel)) be h req t = (Val [], t')) /\
       (forall err t', err <> [] -> next = (Val err, t') ->
          baseExporter_send ext (S (S fuel)) be h req t =
          (Val err, t' ++ [EvLogError queueDisabledMessage (Count req) err]))) /\
  (forall cfg, lastRetry options = Some cfg -> RetryEnabled cfg = false ->
     slotImpl be h SlotRetry = Some (ErrorLoggingRequestSender retryDisabledMessage) /\
     forall fuel req t,
       let next :=
         ext (TimeoutSender (lastTimeout options)) (baseRequestSender_send None) req
           (t ++ [EvSend (retrySender be) req; EvSend (timeoutSender be) req]) in
       send ext (S (S fuel)) h (retrySender be) req t =
         logged retryDisabledMessage req next /\
       (forall t', next = (Val [], t') ->
          send ext (S (S fuel)) h (retrySender be) req t = (Val [], t')) /\
       (forall err t', err <> [] -> next = (Val err, t') ->
          send ext (S (S fuel)) h (retrySender be) req t =
          (Val err, t' ++ [EvLogError retryDisabledMessage (Count req) err]))).
Proof.
  intros Hnew.
  destruct (newBaseExporter_returned _ _ _ _ _ _ Hnew) as [HI HL].
  destruct (linked_lookup _ _ _ _ _ HI HL) as (Hq & Hob & f & Hr).
  pose proof (timeout_sender_lookup _ _ _ _ _ _ Hnew) as Ht.
  assert (Hlog : forall message req (out : Res error * Trace) r,
            r = logged message req out ->
            r = logged message req out /\
            (forall t', out = (Val [], t') -> r = (Val [], t')) /\
            (forall err t', err <> [] -> out = (Val err, t') ->
               r = (Val err, t' ++ [EvLogError message (Count req) err]))).
  { intros message req out r ->. split; [reflexivity|]. split.
    - intros t' ->. reflexivity.
    - intros err t' Hne ->. destruct err; [contradiction|reflexivity]. }
  split.
  - intros cfg Hlast Hdis. rewrite Hlast in Hq. simpl in Hq. rewrite Hdis in Hq.
    split; [unfold slotImpl; simpl; rewrite Hq; reflexivity|].
    intros fuel req t. cbv zeta. apply Hlog.
    unfold baseExporter_send.
    rewrite (errorLogging_send ext _ _ _ _ _ req t Hq).
    rewrite (send_outside_at ext _ _ _ _ _ req _ Hob I).
    rewrite <- app_assoc. reflexivity.
  - intros cfg Hlast Hdis. rewrite Hlast in Hr. simpl in Hr. rewrite Hdis in Hr.
    split; [unfold slotImpl; simpl; rewrite Hr; reflexivity|].
    intros fuel req t. cbv zeta. apply Hlog.
    rewrite (errorLogging_send ext _ _ _ _ _ req t Hr).
    rewrite (send_outside_at ext _ _ _ _ _ req _ Ht I).
    rewrite <- app_assoc. reflexivity.
Qed.

Lemma disabled_stage_is_error_logging_pass_through_witness :
  let ext := fun (i : senderImpl) (next : Request -> M error) (req : Request) =>
               ret ["unavailable"%string] in
  exists be h,
    newBaseExporter [] "traces"%string false
      [WithQueue {| QueueEnabled := false; NumConsumers := 10; QueueSize := 1000 |}] =
      Val (inl (be, h)) /\
    forall fuel req t,
      baseExporter_send ext (S (S fuel)) be h req t =
      (Val ["unavailable"%string],
       (t ++ [EvSend (queueSender be) req; EvSend (obsrepSender be) req]) ++
       [EvLogError queueDisabledMessage (Count req) ["unavailable"%string]]).
Proof.
  intros ext. eexists. eexists. split; [reflexivity|].
  intros fuel req t.
  destruct (disabled_stage_is_error_logging_pass_through ext
              [] "traces"%string false
              [WithQueue {| QueueEnabled := false; NumConsumers := 10;
                            QueueSize := 1000 |}] _ _ eq_refl) as [HQ _].
  destruct (HQ _ eq_refl eq_refl) as [_ Hsend].
  destruct (Hsend fuel req t) as (_ & _ & Herr).
  apply Herr; [discriminate | reflexivity].
Defined.

(** X2: of the options [WithStart] and [WithShutdown] the last one wins
    (none leaves the nil function), and the capabilities of all
    [WithCapabilities] options are kept, in the order given; the request
    exporter flag and the signal are those passed in. *)
Theorem options_set_hooks_and_capabilities obsReportErr sig re options be h :
  newBaseExporter obsReportErr sig re options = Val (inl (be, h)) ->
  StartFunc be = lastStart options /\
  ShutdownFunc be = lastShutdown options /\
  consumerOptions be = capabilitiesOf options /\
  requestExporter be = re /\ signal_ be = sig.
Proof.
  intros (h0 & HI & HI2 & _)%newBaseExporter_built.
  destruct HI, HI2. auto.
Qed.

Lemma options_set_hooks_and_capabilities_witness :
  exists be h,
    newBaseExporter [] "logs"%string false
      [WithStart (Some 1); WithCapabilities true; WithStart (Some 2);
       WithShutdown (Some 9); WithCapabilities false] = Val (inl (be, h)) /\
    StartFunc be = Some 2 /\ ShutdownFunc be = Some 9 /\
    consumerOptions be = [true; false] /\
    requestExporter be = false /\ signal_ be = "logs"%string.
Proof.
  eexists. eexists. split; [reflexivity|].
  apply (options_set_hooks_and_capabilities [] "logs"%string false
           [WithStart (Some 1); WithCapabilities true; WithStart (Some 2);
            WithShutdown (Some 9); WithCapabilities false] _ _ eq_refl).
Defined.

(** A retry sender in the chain carries the exporter's handler, and the
    handler belongs to a queue sender of the store. *)
Lemma handler_in_chain obsReportErr sig re options be h :
  newBaseExporter obsReportErr sig re options = Val (inl (be, h)) ->
  (forall cfg f, slotImpl be h SlotRetry = Some (RetrySender cfg f) ->
                 f = onTemporaryFailure_ be) /\
  (forall l : loc, onTemporaryFailure_ be = Some l ->
     exists cfg, impl <$> h !! l = Some (QueueSender cfg sig)).
Proof.
  intros (h0 & HI & HI2 & Hc)%newBaseExporter_built.
  destruct (connectSenders_effect _ _ _ Hc) as (_ & Himpl & _).
  destruct HI as [_ _ _ _ _ [f0 [nr Hr]] _].
  split.
  - intros cfg f. unfold slotImpl. simpl. rewrite Himpl, Hr. simpl.
    intros [= E]. apply (inv2_retry _ _ _ _ HI2 cfg f nr). rewrite Hr, E. reflexivity.
  - intros l Hl. destruct (inv2_obj _ _ _ _ HI2 l Hl) as (cfg & n & E).
    exists cfg. rewrite Himpl, E. reflexivity.
Qed.

(** X3: the temporary-failure handler is wired the same way whatever the
    order of [WithRetry] and [WithQueue]: a retry sender in the chain
    always carries the exporter's current handler; the handler is nil when
    no enabled [WithQueue] was given, is the method of an enabled queue
    sender otherwise, and is that of the queue sender in the chain when the
    last [WithQueue] is enabled. *)
Theorem temporary_failure_handler_wiring obsReportErr sig re options be h :
  newBaseExporter obsReportErr sig re options = Val (inl (be, h)) ->
  (forall cfg f, slotImpl be h SlotRetry = Some (RetrySender cfg f) ->
                 f = onTemporaryFailure_ be) /\
  (existsb enablesQueue options = false -> onTemporaryFailure_ be = None) /\
  (forall l : loc, onTemporaryFailure_ be = Some l ->
     exists cfg, impl <$> h !! l = Some (QueueSender cfg sig)) /\
  (queueEnabled options = true ->
     onTemporaryFailure_ be = Some (queueSender be) /\
     (retryEnabled options = true ->
        exists cfg, slotImpl be h SlotRetry =
                    Some (RetrySender cfg (Some (queueSender be))))).
Proof.
  intros Hnew.
  destruct (handler_in_chain _ _ _ _ _ _ Hnew) as [Hretry Hobj].
  destruct (newBaseExporter_built _ _ _ _ _ _ Hnew) as (h0 & HI & HI2 & Hc).
  destruct (connectSenders_effect _ _ _ Hc) as (_ & Himpl & _).
  destruct HI as [_ _ _ _ _ [f0 [nr Hr]] _].
  split; [exact Hretry|]. split; [exact (inv2_none _ _ _ _ HI2)|].
  split; [exact Hobj|].
  intros Hqen.
  assert (Hon : onTemporaryFailure_ be = Some (queueSender be)).
  { unfold queueEnabled in Hqen.
    destruct (lastQueue options) as [qc|] eqn:LQ; [|discriminate].
    exact (inv2_last _ _ _ _ HI2 qc LQ Hqen). }
  split; [exact Hon|].
  intros Hren. unfold retryEnabled in Hren.
  destruct (lastRetry options) as [rc|] eqn:LR; [|discriminate].
  assert (Hs : slotImpl be h SlotRetry = Some (RetrySender rc f0)).
  { unfold slotImpl. simpl. rewrite Himpl, Hr. simpl. rewrite Hren. reflexivity. }
  exists rc. rewrite Hs, (Hretry _ _ Hs), Hon. reflexivity.
Qed.

Lemma temporary_failure_handler_wiring_witness :
  exists be h,
    newBaseExporter [] "traces"%string false
      [WithRetry {| RetryEnabled := true; InitialInterval := 5;
                    MaxInterval := 30; MaxElapsedTime := 300 |};
       WithQueue {| QueueEnabled := true; NumConsumers := 10; QueueSize := 1000 |}] =
      Val (inl (be, h)) /\
    onTemporaryFailure_ be = Some (queueSender be) /\
    exists cfg, slotImpl be h SlotRetry =
                Some (RetrySender cfg (Some (queueSender be))).
Proof.
  eexists. eexists. split; [reflexivity|].
  destruct (temporary_failure_handler_wiring [] "traces"%string false
      [WithRetry {| RetryEnabled := true; InitialInterval := 5;
                    MaxInterval := 30; MaxElapsedTime := 300 |};
       WithQueue {| QueueEnabled := true; NumConsumers := 10; QueueSize := 1000 |}]
      _ _ eq_refl) as (_ & _ & _ & Hq).
  destruct (Hq eq_refl) as [Hon Hr]. split; [exact Hon | exact (Hr eq_refl)].
Defined.

(** X4: the chain of a returned exporter cannot loop: its four senders are
    four different objects of the store, the timeout sender has no next
    sender, and so has every sender that an option discarded; the store
    holds the four initial senders and one more for each [WithRetry] and
    [WithQueue] option. *)
Theorem chain_is_acyclic obsReportErr sig re options be h :
  newBaseExporter obsReportErr sig re options = Val (inl (be, h)) ->
  NoDup [queueSender be; obsrepSender be; retrySender be; timeoutSender be] /\
  slotNext be h SlotTimeout = None /\
  (forall (l : loc) obj, h !! l = Some obj ->
     l <> queueSender be -> l <> obsrepSender be -> l <> retrySender be ->
     nextSender obj = None) /\
  length h = 4 + length (filter (fun op => allocates op = true) options).
Proof.
  intros (h0 & HI & HI2 & Hc)%newBaseExporter_built.
  destruct (connectSenders_effect _ _ _ Hc) as (Hlen & _ & Hother).
  pose proof HI as [Hre Hsig (D1 & D2 & D3 & D4 & D5 & D6)
                      [nq Hq] [nob Hob] [f0 [nr Hr]] [nt Ht]].
  pose proof HI2 as [Hst Hsh Hcap Hsz Hrt Hlast Hnone Hobj Hun].
  split; [|split; [|split]].
  - repeat constructor; rewrite ?elem_of_cons, ?elem_of_nil; tauto.
  - unfold slotNext. simpl. rewrite Hother by auto. rewrite Ht. simpl.
    exact (Hun _ _ Ht).
  - intros l obj Hl Nq No Nr. rewrite Hother in Hl by auto. exact (Hun _ _ Hl).
  - rewrite Hlen. exact Hsz.
Qed.

Lemma chain_is_acyclic_witness :
  exists be h,
    newBaseExporter [] "traces"%string false
      [WithQueue {| QueueEnabled := true; NumConsumers := 10; QueueSize := 1000 |};
       WithQueue {| QueueEnabled := false; NumConsumers := 10; QueueSize := 1000 |}] =
      Val (inl (be, h)) /\
    slotNext be h SlotTimeout = None /\ length h = 6.
Proof.
  eexists. eexists. split; [reflexivity|].
  destruct (chain_is_acyclic [] "traces"%string false
      [WithQueue {| QueueEnabled := true; NumConsumers := 10; QueueSize := 1000 |};
       WithQueue {| QueueEnabled := false; NumConsumers := 10; QueueSize := 1000 |}]
      _ _ eq_refl) as (_ & Ht & _ & Hlen).
  split; [exact Ht | exact Hlen].
Defined.

(** X5: a [WithQueue] with [Enabled = false] that comes after an enabled
    one replaces the queue sender but does not reset the handler: the
    exporter, and with it any retry sender, keeps the temporary-failure
    handler of the discarded queue sender, which is no longer in the
    chain. *)
Theorem disabled_queue_keeps_stale_handler
    obsReportErr sig re before c1 between c2 after be h :
  QueueEnabled c1 = true -> QueueEnabled c2 = false ->
  replaced between SlotQueue = false -> replaced after SlotQueue = false ->
  newBaseExporter obsReportErr sig re
    (before ++ WithQueue c1 :: between ++ WithQueue c2 :: after) = Val (inl (be, h)) ->
  slotImpl be h SlotQueue = Some (ErrorLoggingRequestSender queueDisabledMessage) /\
  exists l : loc,
    onTemporaryFailure_ be = Some l /\ l <> queueSender be /\
    (exists cfg, impl <$> h !! l = Some (QueueSender cfg sig)) /\
    (forall cfg f, slotImpl be h SlotRetry = Some (RetrySender cfg f) -> f = Some l).
Proof.
  intros E1 E2 Hbetween Hafter Hnew.
  pose proof (handler_in_chain _ _ _ _ _ _ Hnew) as (Hretry & Hobj).
  pose proof (newBaseExporter_returned _ _ _ _ _ _ Hnew) as [HI _].
  destruct (newBaseExporter_options _ _ _ _ _ _ Hnew) as (h0 & Hopts & Hc).
  assert (Hlq : lastQueue (before ++ WithQueue c1 :: between ++ WithQueue c2 :: after)
                = Some c2).
  { rewrite (app_assoc before [WithQueue c1]
               (between ++ WithQueue c2 :: after)
             : before ++ WithQueue c1 :: _ = _).
    rewrite (app_assoc _ between (WithQueue c2 :: after)).
    rewrite (app_assoc _ [WithQueue c2] after : _ ++ WithQueue c2 :: after = _).
    rewrite (lastQueue_app_unreplaced _ _ Hafter), lastQueue_snoc. reflexivity. }
  split.
  { destruct HI as [_ _ _ [nq Hq] _ _ _]. unfold slotImpl. simpl.
    rewrite Hq, Hlq. simpl. rewrite E2. reflexivity. }
  (* the state before the second WithQueue *)
  rewrite (app_assoc before [WithQueue c1] (between ++ WithQueue c2 :: after)
           : before ++ WithQueue c1 :: _ = _) in Hopts.
  rewrite (app_assoc _ between (WithQueue c2 :: after)) in Hopts.
  rewrite applyOptions_app in Hopts.
  destruct (applyOptions ((before ++ [WithQueue c1]) ++ between)
              (initialExporter sig re) initialStore) as [[o3 h3]| |] eqn:E3;
    simpl in Hopts; try discriminate.
  destruct (applyOptions_Inv_both sig re _ [] _ _ _ _
              (Inv_initial sig re) (Inv2_initial sig re) E3) as [HI3 HI23].
  simpl in HI3, HI23.
  assert (Hon3 : onTemporaryFailure_ o3 = Some (queueSender o3)).
  { apply (inv2_last _ _ _ _ HI23 c1); [|exact E1].
    rewrite (lastQueue_app_unreplaced _ _ Hbetween), lastQueue_snoc. reflexivity. }
  destruct (inv2_obj _ _ _ _ HI23 _ Hon3) as (cfg3 & n3 & Hobj3).
  pose proof (lookup_fresh _ _ _ Hobj3) as Hfresh.
  destruct (requestExporter o3) eqn:Ere; [discriminate|].
  rewrite E2 in Hopts. simpl in Hopts.
  destruct (applyOptions_unreplaced _ _ _ _ _ Hafter Hopts) as [Hqs Hon].
  simpl in Hqs, Hon.
  exists (queueSender o3). split; [congruence|]. split; [congruence|].
  split; [apply Hobj; congruence|].
  intros cfg f Hs. rewrite (Hretry _ _ Hs). congruence.
Qed.

Lemma disabled_queue_keeps_stale_handler_witness :
  exists be h,
    newBaseExporter [] "traces"%string false
      ([] ++ WithQueue {| QueueEnabled := true; NumConsumers := 10; QueueSize := 1000 |}
          :: [] ++ WithQueue {| QueueEnabled := false; NumConsumers := 10;
                                QueueSize := 1000 |}
          :: [WithRetry {| RetryEnabled := true; InitialInterval := 5;
                           MaxInterval := 30; MaxElapsedTime := 300 |}]) =
      Val (inl (be, h)) /\
    slotImpl be h SlotQueue = Some (ErrorLoggingRequestSender queueDisabledMessage) /\
    exists l : loc,
      onTemporaryFailure_ be = Some l /\ l <> queueSender be /\
      (exists cfg, impl <$> h !! l = Some (QueueSender cfg "traces"%string)) /\
      (forall cfg f, slotImpl be h SlotRetry = Some (RetrySender cfg f) -> f = Some l).
Proof.
  eexists. eexists. split; [reflexivity|].
  apply (disabled_queue_keeps_stale_handler [] "traces"%string false []
           {| QueueEnabled := true; NumConsumers := 10; QueueSize := 1000 |} []
           {| QueueEnabled := false; NumConsumers := 10; QueueSize := 1000 |}
           [WithRetry {| RetryEnabled := true; InitialInterval := 5;
                         MaxInterval := 30; MaxElapsedTime := 300 |}] _ _
           eq_refl eq_refl eq_refl eq_refl eq_refl).
Defined.

(** X6: when the senders declared outside [common.go] forward the request
    once and the timeout sender hands it to the transport, [send] on a
    returned exporter calls the queue, observability, retry and timeout
    senders once each, in this order, with the same request, and fuel 4 is
    enough; what the transport returns comes back unchanged, logged once by
    each disabled stage, the retry stage first. *)
Theorem send_visits_every_stage_once
    ext transport obsReportErr sig re options be h :
  newBaseExporter obsReportErr sig re options = Val (inl (be, h)) ->
  (forall i next req,
     ext i next req =
     match i with TimeoutSender _ => transport req | _ => next req end) ->
  forall k req t,
    baseExporter_send ext (4 + k) be h req t =
    let visited :=
      t ++ [EvSend (queueSender be) req; EvSend (obsrepSender be) req;
            EvSend (retrySender be) req; EvSend (timeoutSender be) req] in
    let out := transport req visited in
    let out := if retryDisabled options
               then logged retryDisabledMessage req out else out in
    if queueDisabled options then logged queueDisabledMessage req out else out.
Proof.
  intros Hnew Hext k req t.
  destruct (newBaseExporter_returned _ _ _ _ _ _ Hnew) as [HI HL].
  destruct (linked_lookup _ _ _ _ _ HI HL) as (Hq & Hob & f & Hr).
  destruct HI as [_ _ _ _ _ _ [nt Ht]].
  unfold baseExporter_send. change (4 + k) with (S (S (S (S k)))).
  unfold queueDisabled, retryDisabled.
  destruct (lastQueue options) as [qc|]; simpl in Hq; cbv beta iota zeta;
    [destruct (QueueEnabled qc)|];
    (destruct (lastRetry options) as [rc|]; simpl in Hr; cbv beta iota zeta;
       [destruct (RetryEnabled rc)|]);
    cbn [negb];
    rewrite (send_at ext transport Hext _ _ _ _ _ req t Hq); cbv beta iota zeta;
    rewrite (send_at ext transport Hext _ _ _ _ _ req _ Hob); cbv beta iota zeta;
    rewrite (send_at ext transport Hext _ _ _ _ _ req _ Hr); cbv beta iota zeta;
    rewrite (send_at ext transport Hext _ _ _ _ _ req _ Ht); cbv beta iota zeta;
    rewrite <- !app_assoc; reflexivity.
Qed.

Lemma send_visits_every_stage_once_witness :
  let ext := fun i (next : Request -> M error) req =>
               match i with
               | TimeoutSender _ => ret ["connection refused"%string]
               | _ => next req
               end in
  let options := [WithRetry {| RetryEnabled := false; InitialInterval := 5;
                               MaxInterval := 30; MaxElapsedTime := 300 |}] in
  exists be h,
    newBaseExporter [] "metrics"%string false options = Val (inl (be, h)) /\
    forall k req t,
      baseExporter_send ext (4 + k) be h req t =
      let visited :=
        t ++ [EvSend (queueSender be) req; EvSend (obsrepSender be) req;
              EvSend (retrySender be) req; EvSend (timeoutSender be) req] in
      let out := ret ["connection refused"%string] visited in
      let out := if retryDisabled options
                 then logged retryDisabledMessage req out else out in
      if queueDisabled options then logged queueDisabledMessage req out else out.
Proof.
  intros ext options. eexists. eexists. split; [reflexivity|].
  apply (send_visits_every_stage_once ext
           (fun _ => ret ["connection refused"%string])
           [] "metrics"%string false options _ _ eq_refl).
  intros i next req. reflexivity.
Defined.

(** X7: a queue or retry slot that no option replaced forwards silently:
    [send] through it is the [send] of its next sender on the same request,
    and nothing is logged whatever that sender returns. *)
Theorem default_stage_is_silent_pass_through
    ext obsReportErr sig re options be h :
  newBaseExporter obsReportErr sig re options = Val (inl (be, h)) ->
  (replaced options SlotQueue = false ->
     forall fuel req t,
       baseExporter_send ext (S fuel) be h req t =
       send ext fuel h (obsrepSender be) req (t ++ [EvSend (queueSender be) req])) /\
  (replaced options SlotRetry = false ->
     forall fuel req t,
       send ext (S fuel) h (retrySender be) req t =
       send ext fuel h (timeoutSender be) req (t ++ [EvSend (retrySender be) req])).
Proof.
  intros Hnew.
  destruct (newBaseExporter_returned _ _ _ _ _ _ Hnew) as [HI HL].
  destruct (linked_lookup _ _ _ _ _ HI HL) as (Hq & Hob & f & Hr).
  split.
  - intros Hrep fuel req t. rewrite (replaced_queue_None _ Hrep) in Hq.
    apply baseRequestSender_send_at. exact Hq.
  - intros Hrep fuel req t. rewrite (replaced_retry_None _ Hrep) in Hr.
    apply baseRequestSender_send_at. exact Hr.
Qed.

Lemma default_stage_is_silent_pass_through_witness :
  let ext := fun (i : senderImpl) (next : Request -> M error) (req : Request) =>
               ret ["unavailable"%string] in
  exists be h,
    newBaseExporter [] "traces"%string true [] = Val (inl (be, h)) /\
    forall fuel req t,
      baseExporter_send ext (S fuel) be h req t =
      send ext fuel h (obsrepSender be) req (t ++ [EvSend (queueSender be) req]).
Proof.
  intros ext. eexists. eexists. split; [reflexivity|].
  apply (default_stage_is_silent_pass_through ext [] "traces"%string true []
           _ _ eq_refl).
  reflexivity.
Defined.

(** X8: an exporter without [WithStart] and without an enabled queue
    starts without consulting anything outside: [Start] returns nil.
    Likewise [Shutdown] returns nil when there is no [WithShutdown] and
    neither retry nor queue is enabled. *)
Theorem unconfigured_lifecycle_returns_nil env obsReportErr sig re options be h :
  newBaseExporter obsReportErr sig re options = Val (inl (be, h)) ->
  (lastStart options = None -> queueEnabled options = false ->
     forall t, Start env be h t =
               (Val [], t ++ [EvStart (Wrapped None);
                              EvStart (SenderAt (queueSender be))])) /\
  (lastShutdown options = None -> queueEnabled options = false ->
   retryEnabled options = false ->
     forall t, Shutdown env be h t =
               (Val [], t ++ [EvShutdown (SenderAt (retrySender be));
                              EvShutdown (SenderAt (queueSender be));
                              EvShutdown (Wrapped None)])).
Proof.
  intros Hnew.
  destruct (newBaseExporter_built _ _ _ _ _ _ Hnew) as (h0 & _ & HI2 & _).
  pose proof (inv2_start _ _ _ _ HI2) as Hst.
  pose proof (inv2_shutdown _ _ _ _ HI2) as Hsh.
  destruct (newBaseExporter_returned _ _ _ _ _ _ Hnew) as [HI HL].
  destruct (linked_lookup _ _ _ _ _ HI HL) as (Hq & _ & f & Hr).
  unfold queueEnabled, retryEnabled.
  split.
  - intros Hs Hqe t. unfold Start, StartFunc_Start, sender_Start, bind, emit, ret.
    rewrite Hst, Hs, Hq. simpl.
    destruct (lastQueue options) as [qc|]; simpl in *; rewrite ?Hqe;
      rewrite <- app_assoc; reflexivity.
  - intros Hs Hqe Hre t.
    unfold Shutdown, ShutdownFunc_Shutdown, sender_Shutdown, bind, emit, ret.
    rewrite Hsh, Hs, Hq, Hr. simpl.
    destruct (lastQueue options) as [qc|]; simpl in *; rewrite ?Hqe;
      (destruct (lastRetry options) as [rc|]; simpl in *; rewrite ?Hre);
      rewrite <- !app_assoc; reflexivity.
Qed.

Lemma unconfigured_lifecycle_returns_nil_witness :
  exists be h,
    newBaseExporter [] "traces"%string false
      [WithQueue {| QueueEnabled := false; NumConsumers := 10; QueueSize := 1000 |}] =
      Val (inl (be, h)) /\
    Start (fun _ => ["never asked"%string]) be h [] =
      (Val [], [EvStart (Wrapped None); EvStart (SenderAt (queueSender be))]).
Proof.
  eexists. eexists. split; [reflexivity|].
  destruct (unconfigured_lifecycle_returns_nil (fun _ => ["never asked"%string])
              [] "traces"%string false
              [WithQueue {| QueueEnabled := false; NumConsumers := 10;
                            QueueSize := 1000 |}] _ _ eq_refl) as [Hs _].
  exact (Hs eq_refl eq_refl []).
Defined.

(** X9: [OnProcessingFinished] has no guard of its own: [k] calls run the
    callback set last [k] times, and do nothing when that callback is nil;
    setting the callback leaves the rest of the request alone. *)
Theorem OnProcessingFinished_runs_on_every_call k callback req t :
  callTimes k (OnProcessingFinished (SetOnProcessingFinished callback req)) t =
    (Val tt,
     t ++ match callback with
          | Some c => replicate k (EvProcessingFinished c)
          | None => []
          end) /\
  payload (SetOnProcessingFinished callback req) = payload req /\
  Count (SetOnProcessingFinished callback req) = Count req.
Proof.
  split; [|split; reflexivity].
  revert t. induction k as [|k IH]; intros t; simpl.
  - destruct callback; simpl; rewrite app_nil_r; reflexivity.
  - unfold bind. rewrite OnProcessingFinished_fires. simpl. rewrite IH.
    destruct callback; simpl.
    + rewrite <- app_assoc. reflexivity.
    + rewrite !app_nil_r. reflexivity.
Qed.

(** X10: the options only work before [connectSenders]: a disabled
    [WithQueue] or [WithRetry] run on an exporter installs a sender whose
    next sender is nil, so a [send] that reaches it before the senders are
    connected again panics with a nil dereference, having called nothing
    further. *)
Theorem option_leaves_sender_unlinked ext o (h : Heap) fuel req t :
  (forall config, requestExporter o = false -> QueueEnabled config = false ->
     exists o' h',
       applyOption (WithQueue config) o h = Val (o', h') /\
       baseExporter_send ext (S fuel) o' h' req t =
       (Panic nilDeref, t ++ [EvSend (queueSender o') req])) /\
  (forall config, RetryEnabled config = false ->
     exists o' h',
       applyOption (WithRetry config) o h = Val (o', h') /\
       send ext (S fuel) h' (retrySender o') req t =
       (Panic nilDeref, t ++ [EvSend (retrySender o') req])).
Proof.
  split.
  - intros config Hre Hdis. simpl. rewrite Hre, Hdis. simpl.
    do 2 eexists. split; [reflexivity|].
    unfold baseExporter_send. simpl. rewrite alloc_lookup_new. reflexivity.
  - intros config Hdis. simpl. rewrite Hdis. simpl.
    do 2 eexists. split; [reflexivity|].
    simpl. rewrite alloc_lookup_new. reflexivity.
Qed.

Lemma option_leaves_sender_unlinked_witness :
  exists o' h',
    applyOption
      (WithQueue {| QueueEnabled := false; NumConsumers := 10; QueueSize := 1000 |})
      (initialExporter "traces"%string false) initialStore = Val (o', h') /\
    baseExporter_send (fun _ next req => next req) 1 o' h'
      {| payload := "spans"%string; Count := 1;
         processingFinishedCallback := None |} [] =
    (Panic nilDeref,
     [] ++ [EvSend (queueSender o')
              {| payload := "spans"%string; Count := 1;
                 processingFinishedCallback := None |}]).
Proof.
  apply (option_leaves_sender_unlinked (fun _ next req => next req)
           (initialExporter "traces"%string false) initialStore 0
           {| payload := "spans"%string; Count := 1;
              processingFinishedCallback := None |} []);
    reflexivity.
Defined.

(* ===================================================================== *)
(** ** Properties of the bounded queue                                    *)
(* ===================================================================== *)

Import internal.

Lemma elem_of_insert_inv (ws : list Worker) i w x :
  x ∈ <[i := w]> ws -> x = w \/ x ∈ ws.
Proof.
  intros [j Hj]%list_elem_of_lookup.
  apply list_lookup_insert_Some in Hj as [(-> & -> & _) | (_ & Hj)].
  - left. reflexivity.
  - right. eapply list_elem_of_lookup_2, Hj.
Qed.

Lemma firstWaiting_Some ws i :
  firstWaiting ws = Some i -> ws !! i = Some Waiting.
Proof.
  revert i. induction ws as [|w ws IH]; intros i; simpl; [discriminate|].
  destruct w; simpl; try (intros [= <-]; reflexivity);
    destruct (firstWaiting ws) as [j|]; simpl; try discriminate;
    intros [= <-]; simpl; auto.
Qed.

Lemma firstWaiting_None ws :
  firstWaiting ws = None -> Waiting ∉ ws.
Proof.
  induction ws as [|w ws IH]; simpl; intros H Hin.
  - apply elem_of_nil in Hin. exact Hin.
  - destruct w; simpl in H; try discriminate;
      destruct (firstWaiting ws); simpl in H; try discriminate;
      apply elem_of_cons in Hin as [Hin|Hin]; try discriminate;
      exact (IH eq_refl Hin).
Qed.

Lemma allExited_lookup ws i w :
  forallb isExited ws = true -> ws !! i = Some w -> w = Exited.
Proof.
  intros Hall Hi. apply forallb_forall with (x := w) in Hall.
  - destruct w; simpl in Hall; try discriminate. reflexivity.
  - apply list_elem_of_In. eapply list_elem_of_lookup_2, Hi.
Qed.

Lemma wake_not_Waiting (ws : list Worker) : Waiting ∉ wake <$> ws.
Proof.
  intros (w & Hw & _)%list_elem_of_fmap. destruct w; discriminate.
Qed.

Lemma wake_Exited (ws : list Worker) :
  Exited ∈ wake <$> ws -> Waiting ∈ ws \/ Exited ∈ ws.
Proof.
  intros (w & Hw & Hin)%list_elem_of_fmap. destruct w; try discriminate; auto.
Qed.

Lemma holding_insert (ws : list Worker) i w w' :
  ws !! i = Some w ->
  exists A B, holding ws = A ++ holds w ++ B /\
              holding (<[i := w']> ws) = A ++ holds w' ++ B /\
              (length ws = 1 -> A = [] /\ B = []).
Proof.
  intros Hi. exists (holding (take i ws)), (holding (drop (S i) ws)).
  split; [|split].
  - rewrite <- (take_drop_middle ws i w Hi) at 1.
    unfold holding. rewrite bind_app, bind_cons. reflexivity.
  - rewrite insert_take_drop by (eapply lookup_lt_Some, Hi).
    unfold holding. rewrite bind_app, bind_cons. reflexivity.
  - intros Hlen. destruct ws as [|w0 [|w1 ws]]; try discriminate.
    destruct i; [auto | discriminate].
Qed.

Lemma holding_wake (ws : list Worker) : holding (wake <$> ws) = holding ws.
Proof.
  induction ws as [|w ws IH]; [reflexivity|].
  unfold holding in *. rewrite fmap_cons, !bind_cons, IH. destruct w; reflexivity.
Qed.

Lemma holding_replicate n : holding (replicate n Ready) = [].
Proof.
  induction n as [|n IH]; [reflexivity|].
  unfold holding in *. simpl. exact IH.
Qed.

Lemma QueueInv_initial C W : QueueInv C W (NewBoundedMemoryQueue C W).
Proof.
  split; simpl; try reflexivity; try discriminate; try lia;
    intros H; apply elem_of_nil in H; contradiction.
Qed.

(** Worker [i] of a started queue with one worker is the only one. *)
Lemma single_worker (q : Queue) i w :
  length (workers q) = (if started q then 1 else 0) ->
  workers q !! i = Some w -> length (workers q) = 1.
Proof.
  intros Hw Hi. apply lookup_lt_Some in Hi. destruct (started q); lia.
Qed.

(** The history of what workers took and what the callback saw, across a
    change of worker [i] from [w] to [w']. *)
Lemma seen_step W (q : Queue) i w w' took saw :
  length (workers q) = (if started q then W else 0) ->
  workers q !! i = Some w ->
  took ++ holds w = holds w' ++ saw ->
  length took + length (holds w) <= 1 ->
  delivered q ≡ₚ seen q ++ holding (workers q) ->
  (W = 1 -> delivered q = seen q ++ holding (workers q)) ->
  delivered q ++ took ≡ₚ (seen q ++ saw) ++ holding (<[i := w']> (workers q)) /\
  (W = 1 -> delivered q ++ took =
            (seen q ++ saw) ++ holding (<[i := w']> (workers q))).
Proof.
  intros Hw Hi Hmove Hsmall Hseen Hseen1.
  destruct (holding_insert _ i w w' Hi) as (A & B & E1 & E2 & E3).
  rewrite E2. rewrite E1 in Hseen, Hseen1. split.
  - rewrite Hseen.
    assert (Hp : holds w ++ took ≡ₚ holds w' ++ saw).
    { rewrite <- Hmove. apply Permutation_app_comm. }
    transitivity (seen q ++ A ++ B ++ (holds w ++ took)); [solve_Permutation|].
    rewrite Hp. solve_Permutation.
  - intros ->. rewrite (Hseen1 eq_refl).
    destruct E3 as [-> ->]; [eapply single_worker, Hi; exact Hw|].
    simpl. rewrite !app_nil_r, <- !app_assoc. f_equal.
    destruct (holds w) as [|x [|]], took as [|y [|]]; simpl in *; try lia;
      destruct (holds w') as [|x' [|]], saw as [|y' [|]]; simpl in *;
      try discriminate; congruence.
Qed.

Lemma Produce_QueueInv C W item q :
  QueueInv C W q -> QueueInv C W (snd (Produce item q)).
Proof.
  intros HI. pose proof HI as [Hc Hn Hw Hb Hf Hwait Hex Hst Hret Hseen Hseen1].
  unfold Produce. destruct (stopped q) eqn:Es; [exact HI|].
  destruct (firstWaiting (workers q)) as [i|] eqn:Ef.
  - apply firstWaiting_Some in Ef.
    destruct (Hwait (list_elem_of_lookup_2 _ _ _ Ef)) as [Hnil _].
    destruct (seen_step W q i Waiting (Busy item) [item] [] Hw Ef
                eq_refl (Nat.le_refl _) Hseen Hseen1) as [Hp He].
    rewrite app_nil_r in Hp, He.
    split; simpl;
      [ exact Hc | exact Hn | rewrite length_insert; exact Hw | exact Hb
      | rewrite Hf, Hnil, !app_nil_r; reflexivity | | | | | exact Hp | exact He ].
    + intros [?|Hin]%elem_of_insert_inv; [discriminate|]. auto.
    + intros [?|Hin]%elem_of_insert_inv; [discriminate|].
      destruct (Hex Hin). congruence.
    + discriminate.
    + intros Hr. destruct (Hret Hr). congruence.
  - destruct (decide (length (items q) < capacity q)) as [Hlt|Hge]; [|exact HI].
    split; simpl;
      [ exact Hc | exact Hn | exact Hw | rewrite length_app; simpl; lia
      | rewrite Hf, app_assoc; reflexivity | | | | | exact Hseen | exact Hseen1 ].
    + intros Hin. exfalso. exact (firstWaiting_None _ Ef Hin).
    + intros Hin. destruct (Hex Hin). congruence.
    + discriminate.
    + intros Hr. destruct (Hret Hr). congruence.
Qed.

Lemma workerStep_QueueInv C W i q q' :
  QueueInv C W q -> workerStep i q = Some q' -> QueueInv C W q'.
Proof.
  intros [Hc Hn Hw Hb Hf Hwait Hex Hst Hret Hseen Hseen1]. unfold workerStep.
  destruct (workers q !! i) as [[| |item|item|]|] eqn:Ei; try discriminate.
  - destruct (items q) as [|item rest] eqn:Eit; intros [= <-].
    + destruct (seen_step W q i Ready (if stopped q then Exited else Waiting)
                  [] [] Hw Ei) as [Hp He];
        [destruct (stopped q); reflexivity | simpl; lia | exact Hseen | exact Hseen1|].
      rewrite !app_nil_r in Hp, He.
      split; simpl; rewrite ?Eit;
        [ exact Hc | exact Hn | rewrite length_insert; exact Hw | simpl; lia
        | rewrite Hf; reflexivity | | | exact Hst | | exact Hp | exact He ].
      * intros [Hin|Hin]%elem_of_insert_inv.
        -- destruct (stopped q); [discriminate|auto].
        -- destruct (Hwait Hin). auto.
      * intros [Hin|Hin]%elem_of_insert_inv.
        -- destruct (stopped q); [auto|discriminate].
        -- destruct (Hex Hin). auto.
      * intros Hr. destruct (Hret Hr) as [_ Hall].
        pose proof (allExited_lookup _ _ _ Hall Ei). discriminate.
    + destruct (seen_step W q i Ready (Busy item) [item] [] Hw Ei
                  eq_refl (Nat.le_refl _) Hseen Hseen1) as [Hp He].
      rewrite app_nil_r in Hp, He.
      split; simpl;
        [ exact Hc | exact Hn | rewrite length_insert; exact Hw
        | simpl in Hb; lia | rewrite Hf, <- app_assoc; reflexivity
        | | | exact Hst | | exact Hp | exact He ].
      * intros [?|Hin]%elem_of_insert_inv; [discriminate|].
        destruct (Hwait Hin). discriminate.
      * intros [?|Hin]%elem_of_insert_inv; [discriminate|].
        destruct (Hex Hin). discriminate.
      * intros Hr. destruct (Hret Hr) as [_ Hall].
        pose proof (allExited_lookup _ _ _ Hall Ei). discriminate.
  - intros [= <-].
    destruct (seen_step W q i (Busy item) (Calling item) [] [item] Hw Ei
                eq_refl (Nat.le_refl _) Hseen Hseen1) as [Hp He].
    rewrite app_nil_r in Hp, He.
    split; simpl;
      [ exact Hc | exact Hn | rewrite length_insert; exact Hw | exact Hb
      | exact Hf | | | exact Hst | | exact Hp | exact He ].
    + intros [?|Hin]%elem_of_insert_inv; [discriminate|]. auto.
    + intros [?|Hin]%elem_of_insert_inv; [discriminate|]. auto.
    + intros Hr. destruct (Hret Hr) as [_ Hall].
      pose proof (allExited_lookup _ _ _ Hall Ei). discriminate.
  - intros [= <-].
    destruct (seen_step W q i (Calling item) Ready [] [] Hw Ei
                eq_refl (Nat.le_0_l _) Hseen Hseen1) as [Hp He].
    rewrite !app_nil_r in Hp, He.
    split; simpl;
      [ exact Hc | exact Hn | rewrite length_insert; exact Hw | exact Hb
      | exact Hf | | | exact Hst | | exact Hp | exact He ].
    + intros [?|Hin]%elem_of_insert_inv; [discriminate|]. auto.
    + intros [?|Hin]%elem_of_insert_inv; [discriminate|]. auto.
    + intros Hr. destruct (Hret Hr) as [_ Hall].
      pose proof (allExited_lookup _ _ _ Hall Ei). discriminate.
Qed.

Lemma step_QueueInv C W a q q' :
  QueueInv C W q -> step a q = Some q' -> QueueInv C W q'.
Proof.
  intros HI. pose proof HI as [Hc Hn Hw Hb Hf Hwait Hex Hst Hret Hseen Hseen1].
  destruct a as [|item|i| |]; simpl.
  - destruct (started q) eqn:Est; [discriminate|]. intros [= <-].
    assert (Hnone : workers q = []) by (apply nil_length_inv; exact Hw).
    rewrite Hnone in Hseen, Hseen1.
    split; simpl; rewrite ?holding_replicate;
      [ exact Hc | exact Hn | rewrite length_replicate; exact Hn | exact Hb
      | exact Hf | | | reflexivity | | exact Hseen | exact Hseen1 ].
    + intros [? _]%elem_of_replicate. discriminate.
    + intros [? _]%elem_of_replicate. discriminate.
    + intros Hr. destruct (Hret Hr) as [Hs _]. pose proof (Hst Hs). congruence.
  - intros [= <-]. apply Produce_QueueInv. exact HI.
  - apply workerStep_QueueInv. exact HI.
  - destruct (started q) eqn:Est; [|discriminate].
    destruct (stopped q) eqn:Es; [discriminate|]. intros [= <-].
    split; simpl; rewrite ?holding_wake;
      [ exact Hc | exact Hn | rewrite length_fmap, Hw, Est; reflexivity
      | exact Hb | exact Hf | | | intros _; exact Est | | exact Hseen | exact Hseen1 ].
    + intros Hin. exfalso. exact (wake_not_Waiting _ Hin).
    + intros [Hin|Hin]%wake_Exited.
      * destruct (Hwait Hin). auto.
      * destruct (Hex Hin). auto.
    + intros Hr. destruct (Hret Hr). discriminate.
  - unfold shutdownReturn.
    destruct (stopped q) eqn:Es; [|discriminate].
    destruct (forallb isExited (workers q)) eqn:Ea; [|discriminate].
    intros [= <-].
    split; simpl;
      [ exact Hc | exact Hn | exact Hw | exact Hb | exact Hf | exact Hwait
      | exact Hex | exact Hst | intros _; rewrite ?Es; auto
      | exact Hseen | exact Hseen1 ].
Qed.

Lemma run_QueueInv C W acts : forall q q',
  QueueInv C W q -> run acts q = Some q' -> QueueInv C W q'.
Proof.
  induction acts as [|a acts IH]; simpl; intros q q' HI.
  - intros [= <-]. exact HI.
  - destruct (step a q) as [q1|] eqn:Ea; [|discriminate].
    apply IH. eapply step_QueueInv; eauto.
Qed.

Lemma reachable_QueueInv C W q : reachable C W q -> QueueInv C W q.
Proof.
  intros [acts Hrun]. eapply run_QueueInv; [apply QueueInv_initial | exact Hrun].
Qed.

Lemma run_app acts1 acts2 q :
  run (acts1 ++ acts2) q =
  match run acts1 q with Some q' => run acts2 q' | None => None end.
Proof.
  revert q. induction acts1 as [|a acts1 IH]; simpl; intros q; [reflexivity|].
  destruct (step a q); [apply IH | reflexivity].
Qed.

(** A single worker that is about to dequeue from a non-empty buffer takes
    the oldest item, invokes the callback and returns. *)
Lemma consume_one C q item rest :
  QueueInv C 1 q -> workers q = [Ready] -> items q = item :: rest ->
  exists q',
    run [ActWorker 0; ActWorker 0; ActWorker 0] q = Some q' /\
    QueueInv C 1 q' /\ workers q' = [Ready] /\ items q' = rest /\
    stopped q' = stopped q /\ returned q' = returned q /\
    accepted q' = accepted q.
Proof.
  intros HI Hw Eit.
  assert (Hrun : exists q', run [ActWorker 0; ActWorker 0; ActWorker 0] q = Some q' /\
            workers q' = [Ready] /\ items q' = rest /\
            stopped q' = stopped q /\ returned q' = returned q /\
            accepted q' = accepted q).
  { simpl. unfold workerStep at 1. rewrite Hw, Eit. simpl.
    eexists. split; [reflexivity|]. simpl. auto. }
  destruct Hrun as (q' & Hrun & Hrest). exists q'. split; [exact Hrun|].
  split; [eapply run_QueueInv; eauto | exact Hrest].
Qed.

(** Once the queue is closed, its single worker, when it is about to
    dequeue, empties the buffer and exits. *)
Lemma drain_ready C n : forall q,
  QueueInv C 1 q -> stopped q = true -> returned q = false ->
  workers q = [Ready] -> length (items q) = n ->
  exists k q',
    run (replicate k (ActWorker 0)) q = Some q' /\
    workers q' = [Exited] /\ stopped q' = true /\ returned q' = false /\
    accepted q' = accepted q.
Proof.
  induction n as [|n IH]; intros q HI Hs Hr Hw Hlen.
  - apply nil_length_inv in Hlen.
    exists 1, (setWorker 0 Exited q). simpl.
    unfold workerStep. rewrite Hw, Hlen, Hs. simpl. auto.
  - destruct (items q) as [|item rest] eqn:Eit; [discriminate|].
    injection Hlen as Hlen.
    destruct (consume_one C q item rest HI Hw Eit)
      as (q1 & Hrun1 & HI1 & Hw1 & Hit1 & Hs1 & Hr1 & Hacc1).
    destruct (IH q1 HI1) as (k & q' & Hrun & Hw' & Hs' & Hr' & Hacc);
      [congruence | congruence | exact Hw1 | congruence |].
    exists (3 + k), q'. rewrite replicate_add, run_app.
    change (replicate 3 (ActWorker 0)) with [ActWorker 0; ActWorker 0; ActWorker 0].
    rewrite Hrun1. split; [exact Hrun|]. repeat split; congruence.
Qed.

Lemma drain C q :
  QueueInv C 1 q -> stopped q = true -> returned q = false ->
  exists k q',
    run (replicate k (ActWorker 0)) q = Some q' /\
    workers q' = [Exited] /\ stopped q' = true /\ returned q' = false /\
    accepted q' = accepted q.
Proof.
  intros HI Hs Hr.
  pose proof HI as [Hc Hn Hw Hb Hf Hwait Hex Hst Hret Hseen Hseen1].
  rewrite (Hst Hs) in Hw.
  destruct (workers q) as [|w [|w' ws]] eqn:Ew; try discriminate.
  assert (Hnext : forall q1, workerStep 0 q = Some q1 ->
            workers q1 = [Ready] -> stopped q1 = true -> returned q1 = false ->
            accepted q1 = accepted q ->
            exists k q', run (replicate k (ActWorker 0)) q = Some q' /\
              workers q' = [Exited] /\ stopped q' = true /\ returned q' = false /\
              accepted q' = accepted q).
  { intros q1 E1 Hw1 Hs1 Hr1 Hacc1.
    pose proof (workerStep_QueueInv _ _ _ _ _ HI E1) as HI1.
    destruct (drain_ready C (length (items q1)) q1 HI1 Hs1 Hr1 Hw1 eq_refl)
      as (k & q' & Hrun & Hw' & Hs' & Hr' & Hacc).
    exists (S k), q'. simpl. rewrite E1. repeat split; congruence. }
  destruct w as [| |item|item|].
  - eapply drain_ready; eauto.
  - destruct Hwait as [_ Hopen]; [apply list_elem_of_singleton; reflexivity|].
    congruence.
  - assert (E1 : workerStep 0 q =
                 Some {| capacity := capacity q; numConsumers := numConsumers q;
                         items := items q; started := started q;
                         stopped := stopped q; returned := returned q;
                         workers := [Calling item]; accepted := accepted q;
                         delivered := delivered q; seen := seen q ++ [item] |}).
    { unfold workerStep. rewrite Ew. reflexivity. }
    pose proof (workerStep_QueueInv _ _ _ _ _ HI E1) as HI1.
    destruct (drain_ready C (length (items q))
                (setWorker 0 Ready
                   {| capacity := capacity q; numConsumers := numConsumers q;
                      items := items q; started := started q;
                      stopped := stopped q; returned := returned q;
                      workers := [Calling item]; accepted := accepted q;
                      delivered := delivered q; seen := seen q ++ [item] |}))
      as (k & q' & Hrun & Hw' & Hs' & Hr' & Hacc);
      [apply (workerStep_QueueInv C 1 0 _ _ HI1); reflexivity
      | exact Hs | exact Hr | reflexivity | reflexivity |].
    exists (S (S k)), q'. simpl. rewrite E1. simpl. auto.
  - apply (Hnext (setWorker 0 Ready q)); simpl; auto.
    + unfold workerStep. rewrite Ew. reflexivity.
    + rewrite Ew. reflexivity.
  - exists 0, q. simpl. auto.
Qed.

(** C9: in every state the queue can reach, [Size] is between 0 and the
    capacity; it is the length of the buffer alone, so that the accepted
    requests are the buffered ones plus those already handed to a worker. *)
Theorem size_within_capacity C W q :
  reachable C W q ->
  0 <= Size q /\ Size q <= Capacity q /\ Capacity q = C /\
  Size q = length (items q) /\
  length (accepted q) = Size q + length (delivered q).
Proof.
  intros [Hc Hn Hw Hb Hf Hwait Hex Hst Hret]%reachable_QueueInv.
  unfold Size, Capacity. repeat split; [lia | exact Hb | exact Hc |].
  rewrite Hf, length_app. lia.
Qed.

Lemma size_within_capacity_witness :
  exists q,
    run [ActStart; ActWorker 0;
         ActProduce (newStringRequest "a"); ActProduce (newStringRequest "b");
         ActProduce (newStringRequest "c")] (NewBoundedMemoryQueue 1 1) = Some q /\
    0 <= Size q /\ Size q <= Capacity q /\ Capacity q = 1 /\
    Size q = length (items q) /\
    length (accepted q) = Size q + length (delivered q).
Proof.
  eexists. split; [reflexivity|].
  apply (size_within_capacity 1 1).
  exists [ActStart; ActWorker 0;
          ActProduce (newStringRequest "a"); ActProduce (newStringRequest "b");
          ActProduce (newStringRequest "c")].
  reflexivity.
Defined.

(** C4, as stated, fails for more than one worker: two workers take "a"
    and "b" in production order, but the one holding "b" may invoke the
    callback first, and the consumer then sees "b" before "a". *)
Lemma fifo_across_workers_counterexample :
  ~ (forall C W q, reachable C W q ->
       exists later, accepted q = seen q ++ later).
Proof.
  intros H.
  destruct (H 2 2
              {| capacity := 2; numConsumers := 2; items := [];
                 started := true; stopped := false; returned := false;
                 workers := [Busy (newStringRequest "a");
                             Calling (newStringRequest "b")];
                 accepted := [newStringRequest "a"; newStringRequest "b"];
                 delivered := [newStringRequest "a"; newStringRequest "b"];
                 seen := [newStringRequest "b"] |}) as [later Hlater].
  - exists [ActStart; ActProduce (newStringRequest "a");
            ActProduce (newStringRequest "b");
            ActWorker 0; ActWorker 1; ActWorker 1].
    reflexivity.
  - simpl in Hlater. discriminate Hlater.
Qed.

(** C4 (amended): when the buffer of a queue holds [C] items and no
    worker is waiting to dequeue, [Produce] returns false at once and
    changes nothing.  Workers take the accepted requests in production
    order, and every request taken is either held by a worker or has been
    seen by the consumer; with a single worker the consumer sees the
    requests in production order.  With C = 1 and W = 1: "a" and "b" are
    accepted, "c" is rejected, and the consumer sees "a" then "b", whether
    the worker was already waiting when "a" arrived or picked it from the
    buffer. *)
Theorem bounded_queue_overflow_and_fifo C W q :
  reachable C W q ->
  (Size q = C -> Waiting ∉ workers q ->
     forall item, Produce item q = (false, q)) /\
  accepted q = delivered q ++ items q /\
  delivered q ≡ₚ seen q ++ holding (workers q) /\
  (W = 1 -> accepted q = seen q ++ holding (workers q) ++ items q) /\
  (forall first,
     first = [ActStart; ActWorker 0; ActProduce (newStringRequest "a"); ActWorker 0] \/
     first = [ActStart; ActProduce (newStringRequest "a"); ActWorker 0; ActWorker 0] ->
     exists q1 q2 q3,
       run first (NewBoundedMemoryQueue 1 1) = Some q1 /\
       accepted q1 = [newStringRequest "a"] /\
       seen q1 = [newStringRequest "a"] /\ Size q1 = 0 /\
       Produce (newStringRequest "b") q1 = (true, q2) /\ Size q2 = 1 /\
       seen q2 = [newStringRequest "a"] /\
       Produce (newStringRequest "c") q2 = (false, q2) /\
       run [ActWorker 0; ActWorker 0; ActWorker 0] q2 = Some q3 /\
       seen q3 = [newStringRequest "a"; newStringRequest "b"]).
Proof.
  intros [Hc Hn Hw Hb Hf Hwait Hex Hst Hret Hseen Hseen1]%reachable_QueueInv.
  split; [|split; [|split; [|split]]].
  - intros Hsize Hnw item. unfold Produce, Size in *.
    destruct (stopped q); [reflexivity|].
    destruct (firstWaiting (workers q)) as [i|] eqn:Ef.
    + exfalso. apply Hnw. eapply list_elem_of_lookup_2, firstWaiting_Some, Ef.
    + destruct (decide (length (items q) < capacity q)); [lia|reflexivity].
  - exact Hf.
  - exact Hseen.
  - intros HW. rewrite Hf, (Hseen1 HW), <- app_assoc. reflexivity.
  - intros first [-> | ->]; do 3 eexists; repeat split; reflexivity.
Qed.

Lemma bounded_queue_overflow_and_fifo_witness :
  let q := {| capacity := 1; numConsumers := 1; items := [newStringRequest "b"];
              started := true; stopped := false; returned := false;
              workers := [Calling (newStringRequest "a")];
              accepted := [newStringRequest "a"; newStringRequest "b"];
              delivered := [newStringRequest "a"];
              seen := [newStringRequest "a"] |} in
  run [ActStart; ActWorker 0; ActProduce (newStringRequest "a"); ActWorker 0;
       ActProduce (newStringRequest "b")] (NewBoundedMemoryQueue 1 1) = Some q /\
  Size q = 1 /\ (Waiting ∉ workers q) /\
  Produce (newStringRequest "c") q = (false, q) /\
  accepted q = seen q ++ holding (workers q) ++ items q.
Proof.
  intros q.
  assert (Hrun : run [ActStart; ActWorker 0; ActProduce (newStringRequest "a");
                      ActWorker 0; ActProduce (newStringRequest "b")]
                     (NewBoundedMemoryQueue 1 1) = Some q) by reflexivity.
  assert (Hsize : Size q = 1) by reflexivity.
  assert (Hnw : Waiting ∉ workers q).
  { intros H%list_elem_of_singleton. discriminate H. }
  destruct (bounded_queue_overflow_and_fifo 1 1 q) as (Hfull & _ & _ & Hfifo & _).
  { eexists. exact Hrun. }
  split; [exact Hrun|]. split; [exact Hsize|]. split; [exact Hnw|].
  split; [exact (Hfull Hsize Hnw _) | exact (Hfifo eq_refl)].
Defined.

(** C7: for a queue of capacity 0, [Produce] succeeds exactly when a
    worker is waiting on dequeue, and it then hands the request to that
    worker; with no worker at all every [Produce] returns false. *)
Theorem zero_capacity_handoff W q item :
  reachable 0 W q ->
  (fst (Produce item q) = true <-> Waiting ∈ workers q) /\
  (fst (Produce item q) = true ->
     Size (snd (Produce item q)) = 0 /\
     Busy item ∈ workers (snd (Produce item q))) /\
  (W = 0 -> fst (Produce item q) = false).
Proof.
  intros [Hc Hn Hw Hb Hf Hwait Hex Hst Hret]%reachable_QueueInv.
  assert (Hempty : items q = []) by (apply nil_length_inv; lia).
  unfold Produce, Size.
  destruct (stopped q) eqn:Es; simpl.
  { split; [|split].
    - split; [discriminate|]. intros Hin. destruct (Hwait Hin). congruence.
    - discriminate.
    - reflexivity. }
  destruct (firstWaiting (workers q)) as [i|] eqn:Ef; simpl.
  - pose proof (firstWaiting_Some _ _ Ef) as Hi.
    pose proof (list_elem_of_lookup_2 _ _ _ Hi) as Hin.
    split; [|split].
    + tauto.
    + intros _. split; [rewrite Hempty; reflexivity|].
      apply list_elem_of_insert. eapply lookup_lt_Some, Hi.
    + intros ->. exfalso. destruct (started q); simpl in Hw;
        apply nil_length_inv in Hw; rewrite Hw in Hi; discriminate.
  - destruct (decide (length (items q) < capacity q)) as [Hlt|Hge]; [lia|]. simpl.
    split; [|split].
    + split; [discriminate|]. intros Hin.
      exfalso. exact (firstWaiting_None _ Ef Hin).
    + discriminate.
    + reflexivity.
Qed.

Lemma zero_capacity_handoff_witness :
  exists q,
    run [ActStart; ActWorker 0] (NewBoundedMemoryQueue 0 1) = Some q /\
    Waiting ∈ workers q /\
    fst (Produce (newStringRequest "a") q) = true /\
    fst (Produce (newStringRequest "a") (Start (NewBoundedMemoryQueue 0 0))) = false.
Proof.
  exists (setWorker 0 Waiting (Start (NewBoundedMemoryQueue 0 1))).
  split; [reflexivity|].
  assert (Hin : Waiting ∈
                workers (setWorker 0 Waiting (Start (NewBoundedMemoryQueue 0 1)))).
  { apply list_elem_of_singleton. reflexivity. }
  split; [exact Hin|]. split.
  - apply (zero_capacity_handoff 1
             (setWorker 0 Waiting (Start (NewBoundedMemoryQueue 0 1)))
             (newStringRequest "a")); [|exact Hin].
    exists [ActStart; ActWorker 0]. reflexivity.
  - apply (zero_capacity_handoff 0 (Start (NewBoundedMemoryQueue 0 0))
             (newStringRequest "a")); [|reflexivity].
    exists [ActStart]. reflexivity.
Defined.

(** C2: for a queue of capacity 10 with one worker, once [Shutdown] has
    begun every [Produce] returns false; the worker then consumes all that
    was accepted and exits, so that [Shutdown] does return; and when it
    has returned every accepted request has been handed to the worker and
    passed to the callback, in order, and [Size] is 0.  In particular ten
    accepted requests give ten consumed ones. *)
Theorem shutdown_drains_queue q :
  reachable 10 1 q ->
  (stopped q = true -> forall item, Produce item q = (false, q)) /\
  (returned q = true ->
     delivered q = accepted q /\ Size q = 0 /\
     (length (accepted q) = 10 -> length (delivered q) = 10) /\
     (forall item, Produce item q = (false, q)) /\
     seen q = accepted q) /\
  (stopped q = true -> returned q = false ->
     exists k q',
       run (replicate k (ActWorker 0) ++ [ActShutdownReturn]) q = Some q' /\
       returned q' = true /\
       delivered q' = accepted q /\ Size q' = 0 /\
       (forall item, Produce item q' = (false, q')) /\
       seen q' = accepted q).
Proof.
  intros HI%reachable_QueueInv.
  pose proof HI as [Hc Hn Hw Hb Hf Hwait Hex Hst Hret Hseen Hseen1].
  assert (Hrej : forall q0, stopped q0 = true ->
                 forall item, Produce item q0 = (false, q0)).
  { intros q0 Hs item. unfold Produce. rewrite Hs. reflexivity. }
  assert (Hdone : forall q0, QueueInv 10 1 q0 -> stopped q0 = true ->
                  workers q0 = [Exited] ->
                  delivered q0 = accepted q0 /\ Size q0 = 0 /\
                  seen q0 = accepted q0).
  { intros q0 HI0 Hs0 Hw0.
    pose proof (qi_seen1 _ _ _ HI0 eq_refl) as Hs1.
    destruct (qi_exited _ _ _ HI0) as [Hnil _];
      [rewrite Hw0; apply list_elem_of_singleton; reflexivity|].
    rewrite Hw0 in Hs1. simpl in Hs1. rewrite app_nil_r in Hs1.
    unfold Size. rewrite (qi_fifo _ _ _ HI0), Hnil, app_nil_r. auto. }
  split; [apply Hrej|]. split.
  - intros Hr. destruct (Hret Hr) as [Hs Hall].
    rewrite (Hst Hs) in Hw.
    destruct (workers q) as [|w [|w' ws]] eqn:Ew; try discriminate.
    assert (w = Exited) as -> by (destruct w; simpl in Hall; congruence).
    destruct (Hdone q HI Hs Ew) as (Hd & Hz & Hsn).
    split; [exact Hd|]. split; [exact Hz|]. split; [rewrite Hd; auto|].
    split; [apply Hrej; exact Hs | exact Hsn].
  - intros Hs Hr.
    destruct (drain 10 q HI Hs Hr) as (k & q1 & Hrun & Hw1 & Hs1 & Hr1 & Hacc).
    pose proof (run_QueueInv _ _ _ _ _ HI Hrun) as HI1.
    destruct (Hdone q1 HI1 Hs1 Hw1) as (Hd & Hz & Hsn).
    exists k. eexists. rewrite run_app, Hrun. simpl.
    unfold shutdownReturn. rewrite Hs1, Hw1. simpl.
    split; [reflexivity|]. simpl. split; [reflexivity|].
    split; [congruence|]. split; [exact Hz|].
    split; [intros item; reflexivity | congruence].
Qed.

Lemma shutdown_drains_queue_witness :
  let sent := newStringRequest <$>
                ["a"; "b"; "c"; "d"; "e"; "f"; "g"; "h"; "i"; "j"]%string in
  let q := {| capacity := 10; numConsumers := 1; items := [];
              started := true; stopped := true; returned := true;
              workers := [Exited]; accepted := sent; delivered := sent;
              seen := sent |} in
  run (ActStart :: (ActProduce <$> sent) ++
       ActShutdownBegin :: replicate 31 (ActWorker 0) ++ [ActShutdownReturn])
      (NewBoundedMemoryQueue 10 1) = Some q /\
  delivered q = accepted q /\ Size q = 0 /\
  (length (accepted q) = 10 -> length (delivered q) = 10) /\
  (forall item, Produce item q = (false, q)) /\
  seen q = accepted q.
Proof.
  intros sent q.
  assert (Hrun : run (ActStart :: (ActProduce <$> sent) ++
                      ActShutdownBegin :: replicate 31 (ActWorker 0) ++
                      [ActShutdownReturn])
                     (NewBoundedMemoryQueue 10 1) = Some q)
    by (vm_compute; reflexivity).
  split; [exact Hrun|].
  apply (shutdown_drains_queue q); [|reflexivity].
  eexists. exact Hrun.
Defined.

(** *** The scenarios of the queue tests, run on the model *)

(** [TestBoundedQueue]: capacity 1, one consumer held inside the callback
    while "b" and "c" are produced, then released. *)
Example TestBoundedQueue :
  let blocked := [ActStart; ActWorker 0; ActProduce (newStringRequest "a");
                  ActWorker 0;
                  ActProduce (newStringRequest "b");
                  ActProduce (newStringRequest "c")] in
  let unblocked := [ActWorker 0; ActWorker 0; ActWorker 0; ActWorker 0; ActWorker 0;
                    ActProduce (newStringRequest "d");
                    ActWorker 0; ActWorker 0; ActWorker 0;
                    ActProduce (newStringRequest "e");
                    ActWorker 0; ActWorker 0; ActWorker 0;
                    ActProduce (newStringRequest "f");
                    ActWorker 0; ActWorker 0; ActWorker 0;
                    ActShutdownBegin; ActShutdownReturn;
                    ActProduce (newStringRequest "x")] in
  let q := NewBoundedMemoryQueue 1 1 in
  Size <$> run (take 4 blocked) q = Some 0 /\
  Size <$> run (take 5 blocked) q = Some 1 /\
  Size <$> run blocked q = Some 1 /\
  seen <$> run blocked q = Some [newStringRequest "a"] /\
  answers (blocked ++ unblocked) q =
    Some [true; true; false; true; true; true; false] /\
  seen <$> run (blocked ++ unblocked) q =
    Some (newStringRequest <$> ["a"; "b"; "d"; "e"; "f"]%string).
Proof. vm_compute. repeat split; reflexivity. Qed.

(** [TestZeroSizeWithConsumers] and [TestZeroSizeNoConsumers]. *)
Example TestZeroSize :
  (exists q, run [ActStart; ActWorker 0] (NewBoundedMemoryQueue 0 1) = Some q /\
             fst (Produce (newStringRequest "a") q) = true) /\
  (exists q, run [ActStart] (NewBoundedMemoryQueue 0 0) = Some q /\
             fst (Produce (newStringRequest "a") q) = false).
Proof. split; eexists; split; reflexivity. Qed.

(* --------------------------------------------------------------------- *)
(** *** The consumer state of the queue tests                             *)
(* --------------------------------------------------------------------- *)

Lemma snapshot_consumed s : snapshot s = consumed s.
Proof.
  unfold snapshot.
  apply (map_fold_weak_ind (fun (r m : gmap string bool) => r = m)).
  - reflexivity.
  - intros k v m r _ ->. reflexivity.
Qed.

Lemma recordAll_lookup (seen : list stringRequest) : forall s (k : string),
  consumed (recordAll seen s) !! k =
  if decide (k ∈ str <$> seen) then Some true else consumed s !! k.
Proof.
  induction seen as [|item seen IH]; intros s k; simpl.
  - destruct (decide (k ∈ [])) as [H|_]; [|reflexivity].
    apply elem_of_nil in H. contradiction.
  - rewrite IH. simpl.
    destruct (decide (k ∈ str <$> seen)) as [Hin|Hnin].
    + rewrite decide_True by (apply elem_of_cons; auto). reflexivity.
    + destruct (decide (k = str item)) as [->|Hne].
      * rewrite decide_True by (apply elem_of_cons; auto).
        apply lookup_insert_eq.
      * rewrite decide_False by (rewrite elem_of_cons; tauto).
        apply lookup_insert_ne. congruence.
Qed.

Lemma recordAll_once (seen : list stringRequest) : forall s,
  consumedOnce (recordAll seen s) =
  match seen with [] => consumedOnce s | _ => true end.
Proof.
  induction seen as [|item seen IH]; intros s; simpl; [reflexivity|].
  rewrite IH. destruct seen; reflexivity.
Qed.

Lemma snapshot_recordAll_lookup (seen : list stringRequest) (k : string) :
  snapshot (recordAll seen newConsumerState) !! k =
  if decide (k ∈ str <$> seen) then Some true else None.
Proof.
  rewrite snapshot_consumed, recordAll_lookup. simpl.
  destruct (decide (k ∈ str <$> seen)); [reflexivity | apply lookup_empty].
Qed.

(** X11: after the test callback has recorded the requests handed to it,
    the snapshot maps exactly the strings seen to [true]: a string never
    seen is absent, no entry is [false], and seeing a string again changes
    nothing; [consumedOnce] is set exactly when something was recorded. *)
Theorem consumerState_records_strings_seen (seen : list stringRequest) (k : string) :
  snapshot (recordAll seen newConsumerState) !! k =
    (if decide (k ∈ str <$> seen) then Some true else None) /\
  (consumedOnce (recordAll seen newConsumerState) = true <-> seen <> []).
Proof.
  split.
  - apply snapshot_recordAll_lookup.
  - rewrite recordAll_once. destruct seen; simpl; split; congruence.
Qed.

(** X12: [assertConsumed] compares sets: two runs in which the callback saw
    the same strings, in any order and any number of times, pass or fail
    the same assertions. *)
Theorem assertConsumed_ignores_order (seen1 seen2 : list stringRequest) expected :
  (forall k : string, k ∈ str <$> seen1 <-> k ∈ str <$> seen2) ->
  assertConsumed expected (recordAll seen1 newConsumerState) =
  assertConsumed expected (recordAll seen2 newConsumerState).
Proof.
  intros Hsame. unfold assertConsumed.
  assert (E : snapshot (recordAll seen1 newConsumerState) =
              snapshot (recordAll seen2 newConsumerState)).
  { apply map_eq. intros k.
    rewrite (snapshot_recordAll_lookup seen1 k).
    rewrite (snapshot_recordAll_lookup seen2 k).
    destruct (decide (k ∈ str <$> seen1)) as [H1|H1];
      destruct (decide (k ∈ str <$> seen2)) as [H2|H2];
      try reflexivity; exfalso; apply Hsame in H1 || apply Hsame in H2; tauto. }
  rewrite E. reflexivity.
Qed.

Lemma assertConsumed_ignores_order_witness :
  assertConsumed {[ "a"%string := true; "b"%string := true ]}
    (recordAll [newStringRequest "a"; newStringRequest "b"] newConsumerState) =
  assertConsumed {[ "a"%string := true; "b"%string := true ]}
    (recordAll [newStringRequest "b"; newStringRequest "a"; newStringRequest "b"]
       newConsumerState).
Proof.
  apply (assertConsumed_ignores_order
           [newStringRequest "a"; newStringRequest "b"]
           [newStringRequest "b"; newStringRequest "a"; newStringRequest "b"]).
  intros k. simpl. rewrite !elem_of_cons, !elem_of_nil. tauto.
Defined.
